(** * multiplication_counter: the analyzer and the cell colouring of the renderer

    A shallow embedding of [src/multiplication_counter.py]:
    - [count_unique_multiplication_results] (lines 35-68), the analyzer;
    - the cell loop of [visualize_multiplication_table] (lines 105-120).

    Conventions of the embedding.
    - Python integers are [Z].  The loop index [i] comes from [range] and is
      exact; the elements [j] of [j_range = np.arange(i, m + 1, dtype=np.int32)]
      are taken as exact too, which they are as long as [m + 1] fits in 32
      bits.
    - [results = i * j_range] is an [int32] array product: every product is
      reduced to a signed 32-bit integer ([wrap32]), as NumPy does without
      raising.
    - A NumPy matrix is a list of rows.  Indexing follows NumPy: an index [k]
      with [-len <= k < 0] counts from the end, anything else outside
      [0, len) raises [IndexError].
    - The Python set [seen_results] is a [gset Z].
    - Exceptions are the [Err] branch of [res].
    - The field [trace] of the loop state is a ghost log of the matrix
      writes; it is not part of the value the analyzer returns.
    - The analyzer is given a second time on a heap of mutable objects
      ([heap_count_unique_multiplication_results]), to follow what two calls
      share, and the loops a third time behind allocations that can fail
      ([analyzer_run_intp]); both are related to the first embedding. *)

From stdpp Require Import gmap list strings.
From Stdlib Require Import ZArith Lia.

Local Open Scope Z_scope.

(** ** Exceptions and the error monad *)

Inductive exn : Type :=
  | ValueError   (* np.zeros: negative dimensions are not allowed; array is too big *)
  | TypeError    (* np.zeros: object cannot be interpreted as an integer *)
  | IndexError   (* index is out of bounds for axis *)
  | MemoryError. (* np.zeros: unable to allocate *)

Inductive res (A : Type) : Type :=
  | Ok (a : A)
  | Err (e : exn).
Arguments Ok {A} a.
Arguments Err {A} e.

Global Instance res_bind : MBind res := λ A B k x,
  match x with
  | Ok a => k a
  | Err e => Err e
  end.

Global Instance res_ret : MRet res := λ A a, Ok a.

Fixpoint foldM {A S : Type} (f : A → S → res S) (l : list A) (s : S) : res S :=
  match l with
  | [] => Ok s
  | a :: l' => s' ← f a s; foldM f l' s'
  end.

(** ** 32-bit integers *)

Definition wrap32 (z : Z) : Z := (z + 2 ^ 31) `mod` 2 ^ 32 - 2 ^ 31.

Definition max_int32 : Z := 2 ^ 31 - 1.

(** ** NumPy matrices *)

Abbreviation matrix A := (list (list A)).

(** [np.zeros((n, m), dtype=...)] with [zero] the zero of the dtype. *)
Definition np_zeros {A : Type} (zero : A) (n m : Z) : res (matrix A) :=
  if bool_decide (n < 0 ∨ m < 0) then Err ValueError
  else Ok (replicate (Z.to_nat n) (replicate (Z.to_nat m) zero)).

(** NumPy's treatment of an index on an axis of length [len]. *)
Definition norm_index (len : nat) (k : Z) : option nat :=
  if bool_decide (0 ≤ k < Z.of_nat len) then Some (Z.to_nat k)
  else if bool_decide (- Z.of_nat len ≤ k < 0) then Some (Z.to_nat (k + Z.of_nat len))
  else None.

Definition get2 {A : Type} (M : matrix A) (r c : nat) : option A :=
  M !! r ≫= λ row, row !! c.

(** [M[r, c] = v] *)
Definition setitem2 {A : Type} (M : matrix A) (r c : Z) (v : A) : res (matrix A) :=
  match norm_index (length M) r with
  | None => Err IndexError
  | Some r' =>
      match M !! r' with
      | None => Err IndexError
      | Some row =>
          match norm_index (length row) c with
          | None => Err IndexError
          | Some c' => Ok (<[r' := <[c' := v]> row]> M)
          end
      end
  end.

(** ** The analyzer *)

Inductive access : Type :=
  | WriteResult (r c : Z)   (* result_matrix[r, c] = ... *)
  | WriteIsNew (r c : Z).   (* is_new_matrix[r, c] = True *)

Record state : Type := mkState {
  seen_results : gset Z;
  result_matrix : matrix Z;
  is_new_matrix : matrix bool;
  trace : list access
}.

(** Lines 49-51. *)
Definition init_state (n m : Z) : res state :=
  rm ← np_zeros 0 n m;
  nm ← np_zeros false n m;
  Ok (mkState ∅ rm nm []).

(** [range(a, b)] and [np.arange(a, b)]. *)
Definition py_range (a b : Z) : list Z := seqZ a (b - a).

(** Lines 58-66: one iteration of the inner loop, [result = results[idx]]. *)
Definition inner_body (n i : Z) (jr : Z * Z) (st : state) : res state :=
  let '(j, result) := jr in
  rm1 ← setitem2 (result_matrix st) (i - 1) (j - 1) result;
  let tr1 := trace st ++ [WriteResult (i - 1) (j - 1)] in
  '(rm2, tr2) ←
    (if bool_decide (j ≤ n)
     then rm' ← setitem2 rm1 (j - 1) (i - 1) result;
          Ok (rm', tr1 ++ [WriteResult (j - 1) (i - 1)])
     else Ok (rm1, tr1));
  if bool_decide (result ∉ seen_results st)
  then nm ← setitem2 (is_new_matrix st) (i - 1) (j - 1) true;
       Ok (mkState ({[result]} ∪ seen_results st) rm2 nm
                   (tr2 ++ [WriteIsNew (i - 1) (j - 1)]))
  else Ok (mkState (seen_results st) rm2 (is_new_matrix st) tr2).

(** Lines 54-66: one iteration of the outer loop. *)
Definition outer_body (n m i : Z) (st : state) : res state :=
  let j_range := py_range i (m + 1) in
  let results := (λ j, wrap32 (i * j)) <$> j_range in
  foldM (inner_body n i) (zip j_range results) st.

(** Lines 49-66: the state when the loops are over. *)
Definition analyzer_run (n m : Z) : res state :=
  st ← init_state n m;
  foldM (outer_body n m) (py_range 1 (n + 1)) st.

(** Line 68: [(seen_results, len(seen_results), result_matrix, is_new_matrix)]. *)
Definition analysis : Type := gset Z * nat * matrix Z * matrix bool.

Definition count_unique_multiplication_results (n m : Z) : res analysis :=
  st ← analyzer_run n m;
  Ok (seen_results st, size (seen_results st), result_matrix st, is_new_matrix st).

Definition a_set (a : analysis) : gset Z := a.1.1.1.
Definition a_count (a : analysis) : nat := a.1.1.2.
Definition a_result (a : analysis) : matrix Z := a.1.2.
Definition a_is_new (a : analysis) : matrix bool := a.2.



(** The two [plt.rcParams] entries that [setup_japanese_font] assigns at
    import time. *)
Record globals : Type := mkGlobals {
  font_family : string;
  font_sans_serif : list string
}.

(** ** The analyzer on a heap of Python objects

    The three local variables of the analyzer are references to mutable
    objects: two NumPy arrays and a set, created on lines 49-51 and updated
    in place on lines 59, 62, 65 and 66.  Here the objects live in a heap,
    which also holds whatever else the process has: the objects earlier
    calls returned and the module-level [plt.rcParams].  A call receives the
    heap as it is and returns references into the heap it leaves behind. *)

Inductive pyobj : Type :=
  | ObjSet (s : gset Z)
  | ObjInt32Matrix (X : matrix Z)
  | ObjBoolMatrix (X : matrix bool)
  | ObjRcParams (g : globals).

Abbreviation heap := (gmap nat pyobj).

(** A new object gets an address that is not in use. *)
Definition alloc (o : pyobj) (h : heap) : nat * heap :=
  let a := fresh (dom h) in (a, <[a := o]> h).

(** The local variables [seen_results], [result_matrix], [is_new_matrix]. *)
Record refs : Type := mkRefs {
  ref_seen : nat;
  ref_result : nat;
  ref_is_new : nat
}.

(** [X[r, c] = v] on the array at address [a]. *)
Definition heap_setitem_int (a : nat) (r c : Z) (v : Z) (h : heap) : res heap :=
  match h !! a with
  | Some (ObjInt32Matrix X) => X' ← setitem2 X r c v; Ok (<[a := ObjInt32Matrix X']> h)
  | _ => Err TypeError
  end.

Definition heap_setitem_bool (a : nat) (r c : Z) (v : bool) (h : heap) : res heap :=
  match h !! a with
  | Some (ObjBoolMatrix X) => X' ← setitem2 X r c v; Ok (<[a := ObjBoolMatrix X']> h)
  | _ => Err TypeError
  end.

(** [v in s], [s.add(v)] and [len(s)] on the set at address [a]. *)
Definition heap_contains (a : nat) (v : Z) (h : heap) : res bool :=
  match h !! a with
  | Some (ObjSet s) => Ok (bool_decide (v ∈ s))
  | _ => Err TypeError
  end.

Definition heap_add (a : nat) (v : Z) (h : heap) : res heap :=
  match h !! a with
  | Some (ObjSet s) => Ok (<[a := ObjSet ({[v]} ∪ s)]> h)
  | _ => Err TypeError
  end.

Definition heap_len (a : nat) (h : heap) : res nat :=
  match h !! a with
  | Some (ObjSet s) => Ok (size s)
  | _ => Err TypeError
  end.

(** Lines 49-51: three new objects. *)
Definition heap_init (n m : Z) (h : heap) : res (refs * heap) :=
  rm ← np_zeros 0 n m;
  let '(a_rm, h1) := alloc (ObjInt32Matrix rm) h in
  nm ← np_zeros false n m;
  let '(a_nm, h2) := alloc (ObjBoolMatrix nm) h1 in
  let '(a_seen, h3) := alloc (ObjSet ∅) h2 in
  Ok (mkRefs a_seen a_rm a_nm, h3).

(** Lines 58-66. *)
Definition heap_inner_body (n i : Z) (rf : refs) (jr : Z * Z) (h : heap) : res heap :=
  let '(j, result) := jr in
  h1 ← heap_setitem_int (ref_result rf) (i - 1) (j - 1) result h;
  h2 ← (if bool_decide (j ≤ n)
        then heap_setitem_int (ref_result rf) (j - 1) (i - 1) result h1
        else Ok h1);
  seen ← heap_contains (ref_seen rf) result h2;
  if negb seen
  then h3 ← heap_setitem_bool (ref_is_new rf) (i - 1) (j - 1) true h2;
       heap_add (ref_seen rf) result h3
  else Ok h2.

(** Lines 54-66. *)
Definition heap_outer_body (n m : Z) (rf : refs) (i : Z) (h : heap) : res heap :=
  let j_range := py_range i (m + 1) in
  let results := (λ j, wrap32 (i * j)) <$> j_range in
  foldM (heap_inner_body n i rf) (zip j_range results) h.

(** Lines 49-68: the returned references, the returned count and the heap
    after the call. *)
Definition heap_count_unique_multiplication_results (n m : Z) (h : heap)
  : res (refs * nat * heap) :=
  '(rf, h0) ← heap_init n m h;
  h' ← foldM (heap_outer_body n m rf) (py_range 1 (n + 1)) h0;
  count ← heap_len (ref_seen rf) h';
  Ok (rf, count, h').

(** What a returned tuple holds, read through its references. *)
Definition contents (h : heap) (rf : refs) (count : nat) : option analysis :=
  match h !! ref_seen rf, h !! ref_result rf, h !! ref_is_new rf with
  | Some (ObjSet s), Some (ObjInt32Matrix rm), Some (ObjBoolMatrix nm) =>
      Some (s, count, rm, nm)
  | _, _, _ => None
  end.

(** ** The analyzer with the limits of the allocation

    [np.zeros] refuses a shape whose size in bytes does not fit the signed
    64-bit [npy_intp] ([ValueError], array is too big; dimensions equal to 0
    are left out of that product), and raises [MemoryError] when the
    allocator cannot provide the bytes; [available] says which byte counts
    the allocator can provide. *)

Definition max_intp : Z := 2 ^ 63 - 1.

Definition np_zeros_intp {A : Type} (available : Z → bool) (itemsize : Z) (zero : A)
    (n m : Z) : res (matrix A) :=
  if bool_decide (n < 0 ∨ m < 0) then Err ValueError
  else if bool_decide (max_intp < itemsize * (if bool_decide (n = 0) then 1 else n)
                                           * (if bool_decide (m = 0) then 1 else m))
  then Err ValueError
  else if available (itemsize * n * m)
  then Ok (replicate (Z.to_nat n) (replicate (Z.to_nat m) zero))
  else Err MemoryError.

(** Lines 49-66 with these allocations: [int32] entries take 4 bytes,
    [bool_] entries 1. *)
Definition analyzer_run_intp (available : Z → bool) (n m : Z) : res state :=
  rm ← np_zeros_intp available 4 0 n m;
  nm ← np_zeros_intp available 1 false n m;
  foldM (outer_body n m) (py_range 1 (n + 1)) (mkState ∅ rm nm []).

(** ** The cell loop of the renderer *)

(** [l[k]] *)
Definition getitem {A : Type} (l : list A) (k : Z) : res A :=
  match norm_index (length l) k with
  | None => Err IndexError
  | Some k' =>
      match l !! k' with
      | None => Err IndexError
      | Some x => Ok x
      end
  end.

(** [patches.Rectangle((x_pos, y_pos), 1, 1, ..., facecolor=color, ...)];
    the width, height, line width, edge colour and alpha are constants. *)
Record patch : Type := mkPatch {
  xy : Z * Z;
  facecolor : string
}.

Definition new_color : string := "red".
Definition repeat_color : string := "white".

(** Line 111. *)
Definition cell_color (is_new : bool) : string :=
  if is_new then new_color else repeat_color.

(** Lines 109-120. *)
Definition draw_cell (y_pos : Z) (is_new_row : list bool) (j : Z) (ax : list patch)
  : res (list patch) :=
  let x_pos := j in
  b ← getitem is_new_row j;
  let color := cell_color b in
  Ok (ax ++ [mkPatch (x_pos, y_pos) color]).

(** Lines 105-120. *)
Definition draw_row (n m : Z) (is_new_matrix : matrix bool) (i : Z) (ax : list patch)
  : res (list patch) :=
  let y_pos := n - 1 - i in
  is_new_row ← getitem is_new_matrix i;
  foldM (draw_cell y_pos is_new_row) (py_range 0 m) ax.

Definition draw_cells (n m : Z) (is_new_matrix : matrix bool) : res (list patch) :=
  foldM (draw_row n m is_new_matrix) (py_range 0 n) [].

(** Lines 80, 105-120 and 143: the patches added to the axes and the returned
    pair [(count, unique_results)]. *)
Definition visualize_multiplication_table (n m : Z)
  : res (list patch * (nat * gset Z)) :=
  a ← count_unique_multiplication_results n m;
  ax ← draw_cells n m (a_is_new a);
  Ok (ax, (a_count a, a_set a)).

(** ** What the specification counts *)

(** The distinct products of the full table: all [i * j] with [i] in [1..n]
    and [j] in [1..m]. *)
Definition table_products (n m : Z) : gset Z :=
  list_to_set (i ← seqZ 1 n; j ← seqZ 1 m; [i * j]).

(** Number of true entries of a boolean matrix. *)
Definition count_true (M : matrix bool) : nat :=
  length (filter (λ b, b = true) (concat M)).

(** The cells of [result_matrix] the traversal wrote to, and their values. *)
Definition written_cells (tr : list access) : list (Z * Z) :=
  omap (λ a, match a with WriteResult r c => Some (r, c) | WriteIsNew _ _ => None end) tr.

Definition written_values (st : state) : gset Z :=
  list_to_set
    (omap (λ rc : Z * Z, get2 (result_matrix st) (Z.to_nat rc.1) (Z.to_nat rc.2))
          (written_cells (trace st))).

(** An access is within the bounds of an [n] by [m] matrix. *)
Definition in_bounds (n m : Z) (a : access) : Prop :=
  match a with
  | WriteResult r c | WriteIsNew r c => 0 ≤ r < n ∧ 0 ≤ c < m
  end.

(** The pairs [(i, j)] the two loops go through, in order. *)
Definition steps (n m : Z) : list (Z * Z) :=
  i ← py_range 1 (n + 1); (λ j, (i, j)) <$> py_range i (m + 1).

Definition val (p : Z * Z) : Z := wrap32 (p.1 * p.2).

(** ** Definitions used by the proofs *)

(** [X] has [N] rows of [M] entries each. *)
Definition shape {A : Type} (N M : nat) (X : matrix A) : Prop :=
  length X = N ∧ Forall (λ row, length row = M) X.

(** The update [setitem2] performs when both indices are in range. *)
Definition set2 {A : Type} (X : matrix A) (r c : nat) (v : A) : matrix A :=
  match X !! r with
  | Some row => <[r := <[c := v]> row]> X
  | None => X
  end.

(** The pairs the loops can reach. *)
Definition valid_step (n m : Z) (p : Z * Z) : Prop := 1 ≤ p.1 ≤ n ∧ p.1 ≤ p.2 ≤ m.

(** Cell [(r, c)] (counted from 0) was written, directly or through the
    mirror assignment, by one of the steps [V]. *)
Definition written (n : Z) (V : list (Z * Z)) (r c : Z) : Prop :=
  ∃ i j, (i, j) ∈ V ∧ ((r = i - 1 ∧ c = j - 1) ∨ (j ≤ n ∧ r = j - 1 ∧ c = i - 1)).

(** The loop invariant of the analyzer: [V] are the steps done so far, [F]
    those of them that met a new value. *)
Record InvF (n m : Z) (V F : list (Z * Z)) (st : state) : Prop := mkInvF {
  inv_rm_shape : shape (Z.to_nat n) (Z.to_nat m) (result_matrix st);
  inv_nm_shape : shape (Z.to_nat n) (Z.to_nat m) (is_new_matrix st);
  inv_rm_written : ∀ r c : nat,
    written n V (Z.of_nat r) (Z.of_nat c) →
    get2 (result_matrix st) r c = Some (wrap32 ((Z.of_nat r + 1) * (Z.of_nat c + 1)));
  inv_rm_untouched : ∀ r c : nat,
    (r < Z.to_nat n)%nat → (c < Z.to_nat m)%nat →
    ¬ written n V (Z.of_nat r) (Z.of_nat c) →
    get2 (result_matrix st) r c = Some 0;
  inv_nm : ∀ r c : nat,
    get2 (is_new_matrix st) r c = Some true ↔ (Z.of_nat r + 1, Z.of_nat c + 1) ∈ F;
  inv_seen_V : seen_results st = list_to_set (val <$> V);
  inv_seen_F : seen_results st = list_to_set (val <$> F);
  inv_F_nodup : NoDup (val <$> F);
  inv_F_sub : F ⊆ V;
  inv_V_valid : Forall (valid_step n m) V;
  inv_count : count_true (is_new_matrix st) = length F;
  inv_tr_bounds : Forall (in_bounds n m) (trace st);
  inv_tr_cells : ∀ r c, (r, c) ∈ written_cells (trace st) ↔ written n V r c
}.

Definition Inv (n m : Z) (V : list (Z * Z)) (st : state) : Prop := ∃ F, InvF n m V F st.

(** The patches the loop adds for a matrix [X], row by row. *)
Definition patches_of (n : Z) (X : matrix bool) : list patch :=
  concat (imap (λ r row,
                  imap (λ c b, mkPatch (Z.of_nat c, n - 1 - Z.of_nat r) (cell_color b)) row)
               X).

(** The three references are three different objects. *)
Definition refs_distinct (rf : refs) : Prop :=
  ref_seen rf ≠ ref_result rf ∧ ref_seen rf ≠ ref_is_new rf
  ∧ ref_result rf ≠ ref_is_new rf.

(** The heap [h] holds, behind the references [rf], the set and the matrices
    of the loop state [st], and agrees with the heap [h0] everywhere else. *)
Record Sim (h0 : heap) (rf : refs) (st : state) (h : heap) : Prop := mkSim {
  sim_seen : h !! ref_seen rf = Some (ObjSet (seen_results st));
  sim_result : h !! ref_result rf = Some (ObjInt32Matrix (result_matrix st));
  sim_is_new : h !! ref_is_new rf = Some (ObjBoolMatrix (is_new_matrix st));
  sim_frame : ∀ k,
    k ≠ ref_seen rf → k ≠ ref_result rf → k ≠ ref_is_new rf → h !! k = h0 !! k
}.

(** [p] is a step of the traversal [V], and no step before it met its value. *)
Definition first_in (V : list (Z * Z)) (p : Z * Z) : Prop :=
  ∃ V1 V2, V = V1 ++ p :: V2 ∧ val p ∉ val <$> V1.

(** The order in which the two loops visit the pairs [(i, j)]. *)
Definition visited_before (p q : Z * Z) : Prop :=
  p.1 < q.1 ∨ (p.1 = q.1 ∧ p.2 < q.2).

(** ** Font configuration *)

(** Lines 8-16. *)
Definition japanese_fonts : list string :=
  ["Hiragino Sans"; "Hiragino Kaku Gothic ProN"; "Arial Unicode MS"; "Yu Gothic";
   "Meiryo"; "Noto Sans CJK JP"; "AppleGothic"].

(** Lines 18-25.  [findfont font_name] stands for the matplotlib call
    [fm.findfont(fm.FontProperties(family=font_name))], whose outcome depends
    on the fonts installed; an [Err] is any exception, which the bare
    [except] turns into [continue].  The assignment to [plt.rcParams] and
    [print] are taken not to raise.  [out] collects the printed lines.  The
    result is [None] when the loop runs to its end without returning. *)
Fixpoint font_loop (findfont : string → res string) (fonts : list string)
    (g : globals) (out : list string) : option (bool * globals * list string) :=
  match fonts with
  | [] => None
  | font_name :: fonts' =>
      match findfont font_name with
      | Ok font_path =>
          Some (true,
                mkGlobals font_name (font_sans_serif g),
                out ++ ["日本語フォントを設定しました: " +:+ font_name])
      | Err _ => font_loop findfont fonts' g out
      end
  end.

(** Lines 6-30: the returned flag, [plt.rcParams] and the printed lines. *)
Definition setup_japanese_font (findfont : string → res string) (g : globals)
  : bool * globals * list string :=
  match font_loop findfont japanese_fonts g [] with
  | Some r => r
  | None =>
      (false,
       mkGlobals "sans-serif" ["Hiragino Sans"; "Arial Unicode MS"; "Yu Gothic"; "Meiryo"],
       ["デフォルトの日本語フォント設定を使用します"])
  end.

(** * Proofs *)

(** ** The error monad *)

Lemma foldM_app {A S : Type} (f : A → S → res S) (l1 l2 : list A) (s : S) :
  foldM f (l1 ++ l2) s = (s' ← foldM f l1 s; foldM f l2 s').
Proof.
  revert s. induction l1 as [|a l1 IH]; intros s; simpl; [done|].
  destruct (f a s) as [s'|e]; simpl; [apply IH|done].
Qed.

(** A loop whose body keeps an invariant indexed by the elements processed so
    far runs to its end and establishes the invariant for the whole list. *)
Lemma foldM_invariant {A S : Type} (f : A → S → res S) (P : A → Prop)
    (I : list A → S → Prop) (l : list A) :
  Forall P l →
  (∀ pre a s, P a → I pre s → ∃ s', f a s = Ok s' ∧ I (pre ++ [a]) s') →
  ∀ pre s, I pre s → ∃ s', foldM f l s = Ok s' ∧ I (pre ++ l) s'.
Proof.
  intros HP Hstep. induction HP as [|a l Ha _ IH]; intros pre s Hs; simpl.
  - exists s. by rewrite app_nil_r.
  - destruct (Hstep pre a s Ha Hs) as (s' & -> & Hs'). simpl.
    destruct (IH _ _ Hs') as (s'' & -> & Hs''). exists s''.
    by rewrite <- app_assoc in Hs''.
Qed.

(** ** 32-bit integers *)

Lemma wrap32_small (z : Z) : - 2 ^ 31 ≤ z ≤ max_int32 → wrap32 z = z.
Proof.
  unfold wrap32, max_int32. intros Hz.
  rewrite Z.mod_small by lia. lia.
Qed.

Lemma wrap32_range (z : Z) : - 2 ^ 31 ≤ wrap32 z ≤ max_int32.
Proof.
  unfold wrap32, max_int32.
  pose proof (Z.mod_pos_bound (z + 2 ^ 31) (2 ^ 32)). lia.
Qed.

(** ** Matrices *)



Lemma norm_index_in (len : nat) (k : Z) :
  0 ≤ k < Z.of_nat len → norm_index len k = Some (Z.to_nat k).
Proof. intros Hk. unfold norm_index. by rewrite bool_decide_eq_true_2. Qed.

Lemma shape_replicate {A : Type} (N M : nat) (z : A) :
  shape N M (replicate N (replicate M z)).
Proof.
  split; [apply length_replicate|].
  apply Forall_replicate, length_replicate.
Qed.

Lemma get2_replicate {A : Type} (N M : nat) (z : A) (r c : nat) :
  (r < N)%nat → (c < M)%nat → get2 (replicate N (replicate M z)) r c = Some z.
Proof.
  intros Hr Hc. unfold get2.
  rewrite lookup_replicate_2 by done. simpl. by apply lookup_replicate_2.
Qed.

Lemma shape_lookup {A : Type} (N M : nat) (X : matrix A) (r : nat) :
  shape N M X → (r < N)%nat → ∃ row, X !! r = Some row ∧ length row = M.
Proof.
  intros [HN HM] Hr.
  destruct (lookup_lt_is_Some_2 X r) as [row Hrow]; [lia|].
  exists row. split; [done|].
  by eapply (proj1 (Forall_lookup _ _) HM).
Qed.

Lemma get2_is_Some {A : Type} (N M : nat) (X : matrix A) (r c : nat) :
  shape N M X → (r < N)%nat → (c < M)%nat → is_Some (get2 X r c).
Proof.
  intros HX Hr Hc. destruct (shape_lookup N M X r HX Hr) as (row & Hrow & Hlen).
  unfold get2. rewrite Hrow. simpl. apply lookup_lt_is_Some_2. lia.
Qed.

Lemma shape_set2 {A : Type} (N M : nat) (X : matrix A) (r c : nat) (v : A) :
  shape N M X → shape N M (set2 X r c v).
Proof.
  intros [HN HM]. unfold set2. destruct (X !! r) as [row|] eqn:Hrow; [|done].
  split; [by rewrite length_insert|].
  apply Forall_insert; [done|]. rewrite length_insert.
  by eapply (proj1 (Forall_lookup _ _) HM).
Qed.

Lemma get2_set2_eq {A : Type} (N M : nat) (X : matrix A) (r c : nat) (v : A) :
  shape N M X → (r < N)%nat → (c < M)%nat → get2 (set2 X r c v) r c = Some v.
Proof.
  intros HX Hr Hc. destruct (shape_lookup N M X r HX Hr) as (row & Hrow & Hlen).
  unfold set2, get2. rewrite Hrow.
  rewrite list_lookup_insert_eq by (destruct HX; lia). simpl.
  apply list_lookup_insert_eq. lia.
Qed.

Lemma get2_set2_ne {A : Type} (X : matrix A) (r c r' c' : nat) (v : A) :
  (r', c') ≠ (r, c) → get2 (set2 X r c v) r' c' = get2 X r' c'.
Proof.
  intros Hne. unfold set2, get2. destruct (X !! r) as [row|] eqn:Hrow; [|done].
  destruct (decide (r' = r)) as [->|Hr].
  - rewrite list_lookup_insert_eq by (by eapply lookup_lt_Some).
    rewrite Hrow. simpl. apply list_lookup_insert_ne. congruence.
  - by rewrite list_lookup_insert_ne.
Qed.

Lemma setitem2_in {A : Type} (N M : nat) (X : matrix A) (r c : Z) (v : A) :
  shape N M X → 0 ≤ r < Z.of_nat N → 0 ≤ c < Z.of_nat M →
  setitem2 X r c v = Ok (set2 X (Z.to_nat r) (Z.to_nat c) v).
Proof.
  intros HX Hr Hc.
  destruct (shape_lookup N M X (Z.to_nat r) HX) as (row & Hrow & Hlen); [lia|].
  unfold setitem2, set2. destruct HX as [HN _].
  rewrite norm_index_in by lia. rewrite Hrow.
  by rewrite norm_index_in by lia.
Qed.

Lemma getitem_in {A : Type} (l : list A) (k : nat) (x : A) :
  l !! k = Some x → getitem l (Z.of_nat k) = Ok x.
Proof.
  intros Hk. unfold getitem.
  rewrite norm_index_in by (apply lookup_lt_Some in Hk; lia).
  by rewrite Nat2Z.id, Hk.
Qed.

(** Counting the true entries. *)

Lemma count_true_row_insert (row : list bool) (c : nat) :
  row !! c = Some false →
  length (filter (λ b, b = true) (<[c := true]> row))
  = S (length (filter (λ b, b = true) row)).
Proof.
  revert c. induction row as [|b row IH]; intros [|c] Hc; simplify_eq/=.
  - rewrite !filter_cons. repeat case_decide; simplify_eq/=; done.
  - rewrite !filter_cons. case_decide; simpl; by rewrite IH.
Qed.

Lemma count_true_set2 (X : matrix bool) (r c : nat) :
  get2 X r c = Some false → count_true (set2 X r c true) = S (count_true X).
Proof.
  unfold get2, set2, count_true. revert r.
  induction X as [|row X IH]; intros [|r] Hget; simplify_eq/=.
  - rewrite !filter_app, !length_app.
    by rewrite count_true_row_insert.
  - destruct (X !! r) as [row'|] eqn:Hrow; simplify_eq/=.
    rewrite !filter_app, !length_app.
    specialize (IH r). rewrite Hrow in IH. simpl in IH. rewrite IH by done. lia.
Qed.

Lemma count_true_replicate (N M : nat) :
  count_true (replicate N (replicate M false)) = 0%nat.
Proof.
  assert (Hrow : filter (λ b, b = true) (replicate M false) = []).
  { induction M as [|M IHM]; simpl; [done|].
    rewrite filter_cons. by case_decide. }
  unfold count_true. induction N as [|N IH]; simpl; [done|].
  by rewrite filter_app, length_app, IH, Hrow.
Qed.

(** ** The loop invariant of the analyzer *)

Lemma zip_fmap_self {A B : Type} (f : A → B) (l : list A) :
  zip l (f <$> l) = (λ x, (x, f x)) <$> l.
Proof. induction l as [|x l IH]; simpl; [done|]. by f_equal. Qed.

Lemma written_cells_app (t1 t2 : list access) :
  written_cells (t1 ++ t2) = written_cells t1 ++ written_cells t2.
Proof. apply omap_app. Qed.

Section analyzer_invariant.
Variables n m : Z.
Hypothesis Hn : 0 ≤ n.
Hypothesis Hm : 0 ≤ m.

Local Abbreviation N := (Z.to_nat n).
Local Abbreviation M := (Z.to_nat m).

Lemma written_snoc (V : list (Z * Z)) (i j r c : Z) :
  written n (V ++ [(i, j)]) r c ↔
  written n V r c ∨ (r = i - 1 ∧ c = j - 1) ∨ (j ≤ n ∧ r = j - 1 ∧ c = i - 1).
Proof.
  unfold written. split.
  - intros (i' & j' & Hin & H). apply elem_of_app in Hin as [Hin|Hin].
    + left. eauto.
    + apply list_elem_of_singleton in Hin. simplify_eq. by right.
  - intros [(i' & j' & Hin & H)|H].
    + exists i', j'. split; [|done]. apply elem_of_app. by left.
    + exists i, j. split; [|done]. apply elem_of_app. right. by apply list_elem_of_singleton.
Qed.

Lemma InvF_init :
  InvF n m [] [] (mkState ∅ (replicate N (replicate M 0)) (replicate N (replicate M false)) []).
Proof.
  split; simpl; try done.
  - apply shape_replicate.
  - apply shape_replicate.
  - intros r c (i & j & Hin & _). by apply elem_of_nil in Hin.
  - intros r c Hr Hc _. by apply get2_replicate.
  - intros r c. split.
    + unfold get2. intros Hget.
      destruct (replicate N (replicate M false) !! r) as [row|] eqn:Hrow; [|done].
      apply lookup_replicate in Hrow as [-> _]. simpl in Hget.
      by apply lookup_replicate in Hget as [? _].
    + intros Hin. by apply elem_of_nil in Hin.
  - constructor.
  - apply count_true_replicate.
  - intros r c. split.
    + intros Hin. by apply elem_of_nil in Hin.
    + intros (i & j & Hin & _). by apply elem_of_nil in Hin.
Qed.

Lemma inner_body_step (V : list (Z * Z)) (i j : Z) (st : state) :
  valid_step n m (i, j) → Inv n m V st →
  ∃ st', inner_body n i (j, wrap32 (i * j)) st = Ok st' ∧ Inv n m (V ++ [(i, j)]) st'.
Proof.
  intros [Hi Hj] [F HI]. simpl in Hi, Hj. destruct st as [seen rm nm tr].
  destruct HI as [Hrm Hnm Hw Hu Hb HsV HsF HFnd HFs HVv Hct Htb Htc]. simpl in *.
  set (v := wrap32 (i * j)).
  set (ri := Z.to_nat (i - 1)). set (cj := Z.to_nat (j - 1)).
  assert (HriN : (ri < N)%nat) by (subst ri; lia).
  assert (HcjM : (cj < M)%nat) by (subst cj; lia).
  assert (Hri : Z.of_nat ri = i - 1) by (subst ri; lia).
  assert (Hcj : Z.of_nat cj = j - 1) by (subst cj; lia).
  unfold inner_body. simpl.
  rewrite (setitem2_in N M rm) by (done || lia). simpl.
  fold ri cj.
  (* the two assignments to result_matrix *)
  assert (∃ rm2 tr2,
    (if bool_decide (j ≤ n)
     then rm' ← setitem2 (set2 rm ri cj v) (j - 1) (i - 1) v;
          Ok (rm', (tr ++ [WriteResult (i - 1) (j - 1)]) ++ [WriteResult (j - 1) (i - 1)])
     else Ok (set2 rm ri cj v, tr ++ [WriteResult (i - 1) (j - 1)])) = Ok (rm2, tr2)
    ∧ shape N M rm2
    ∧ (∀ r c : nat,
         Z.of_nat r = i - 1 ∧ Z.of_nat c = j - 1
         ∨ j ≤ n ∧ Z.of_nat r = j - 1 ∧ Z.of_nat c = i - 1 →
         get2 rm2 r c = Some v)
    ∧ (∀ r c : nat,
         ¬ (Z.of_nat r = i - 1 ∧ Z.of_nat c = j - 1
            ∨ j ≤ n ∧ Z.of_nat r = j - 1 ∧ Z.of_nat c = i - 1) →
         get2 rm2 r c = get2 rm r c)
    ∧ Forall (in_bounds n m) tr2
    ∧ (∀ r c, (r, c) ∈ written_cells tr2 ↔
         (r, c) ∈ written_cells tr
         ∨ (r = i - 1 ∧ c = j - 1) ∨ (j ≤ n ∧ r = j - 1 ∧ c = i - 1)))
    as (rm2 & tr2 & -> & Hrm2 & Hnew & Hold & Htb2 & Htc2).
  { assert (Hs1 : shape N M (set2 rm ri cj v)) by by apply shape_set2.
    case_bool_decide as Hjn.
    - rewrite (setitem2_in N M) by (done || lia). simpl.
      eexists _, _. split; [done|]. split; [by apply shape_set2|].
      set (rj := Z.to_nat (j - 1)). set (ci := Z.to_nat (i - 1)).
      split; [|split; [|split]].
      + intros r c [[Hr Hc]|(_ & Hr & Hc)].
        * destruct (decide ((r, c) = (rj, ci))) as [Heq|Hne].
          -- simplify_eq. apply (get2_set2_eq N M); [done|subst rj; lia|subst ci; lia].
          -- rewrite get2_set2_ne by done.
             assert (r = ri ∧ c = cj) as [-> ->] by lia.
             by apply (get2_set2_eq N M).
        * assert (r = rj ∧ c = ci) as [-> ->] by (subst rj ci; lia).
          apply (get2_set2_eq N M); [done|subst rj; lia|subst ci; lia].
      + intros r c Hnot. rewrite !get2_set2_ne; [done| |].
        * intros Heq. simplify_eq. apply Hnot. left. lia.
        * intros Heq. simplify_eq. apply Hnot. right. subst rj ci. lia.
      + rewrite !Forall_app. repeat split; [done| |].
        * apply Forall_singleton. simpl. lia.
        * apply Forall_singleton. simpl. lia.
      + intros r c. rewrite !written_cells_app. simpl.
        rewrite !elem_of_app, !list_elem_of_singleton.
        split; [intros [[?|?]|?]; simplify_eq; auto; right; right; lia
               |intros [?|[[-> ->]|(_ & -> & ->)]]; auto].
    - eexists _, _. split; [done|]. split; [done|].
      split; [|split; [|split]].
      + intros r c [[Hr Hc]|(? & _)]; [|done].
        assert (r = ri ∧ c = cj) as [-> ->] by lia.
        by apply (get2_set2_eq N M).
      + intros r c Hnot. rewrite get2_set2_ne; [done|].
        intros Heq. simplify_eq. apply Hnot. left. lia.
      + rewrite Forall_app. split; [done|]. apply Forall_singleton. simpl. lia.
      + intros r c. rewrite written_cells_app. simpl.
        rewrite elem_of_app, list_elem_of_singleton.
        split; [intros [?|?]; simplify_eq; auto
               |intros [?|[[-> ->]|(? & _)]]; auto; done]. }
  simpl.
  (* facts about result_matrix shared by both branches *)
  assert (Hw' : ∀ r c : nat,
    written n (V ++ [(i, j)]) (Z.of_nat r) (Z.of_nat c) →
    get2 rm2 r c = Some (wrap32 ((Z.of_nat r + 1) * (Z.of_nat c + 1)))).
  { intros r c Hwr.
    destruct (decide (Z.of_nat r = i - 1 ∧ Z.of_nat c = j - 1
                      ∨ j ≤ n ∧ Z.of_nat r = j - 1 ∧ Z.of_nat c = i - 1)) as [Hc|Hc].
    - rewrite (Hnew r c Hc). f_equal. subst v. f_equal.
      destruct Hc as [[-> ->]|(_ & -> & ->)]; lia.
    - rewrite (Hold r c Hc). apply Hw.
      apply written_snoc in Hwr as [?|?]; [done|]. by destruct Hc. }
  assert (Hu' : ∀ r c : nat, (r < N)%nat → (c < M)%nat →
    ¬ written n (V ++ [(i, j)]) (Z.of_nat r) (Z.of_nat c) → get2 rm2 r c = Some 0).
  { intros r c Hr Hc Hnw. rewrite written_snoc in Hnw.
    rewrite Hold by tauto. apply Hu; [done|done|tauto]. }
  assert (Htc' : ∀ r c, (r, c) ∈ written_cells tr2 ↔ written n (V ++ [(i, j)]) r c).
  { intros r c. rewrite Htc2, written_snoc, Htc. done. }
  assert (HVv' : Forall (valid_step n m) (V ++ [(i, j)])).
  { apply Forall_app. split; [done|]. by apply Forall_singleton. }
  case_bool_decide as Hseen.
  - (* a new value *)
    rewrite (setitem2_in N M nm) by (done || lia). simpl. fold ri cj.
    eexists. split; [done|]. exists (F ++ [(i, j)]).
    assert (Hfalse : get2 nm ri cj = Some false).
    { destruct (get2_is_Some N M nm ri cj Hnm HriN HcjM) as [[|] Hget]; [|done].
      exfalso. apply Hseen. apply Hb in Hget. rewrite HsF.
      apply elem_of_list_to_set, list_elem_of_fmap. exists (i, j).
      split; [done|]. by replace (i, j) with (Z.of_nat ri + 1, Z.of_nat cj + 1) by (f_equal; lia). }
    split; simpl; try done.
    + by apply shape_set2.
    + intros r c. destruct (decide ((r, c) = (ri, cj))) as [Heq|Hne].
      * simplify_eq. rewrite (get2_set2_eq N M) by done.
        split; [intros _|done]. apply elem_of_app. right.
        apply list_elem_of_singleton. f_equal; lia.
      * rewrite get2_set2_ne by done. rewrite Hb, elem_of_app, list_elem_of_singleton.
        split; [auto|]. intros [?|Heq]; [done|]. destruct Hne. simplify_eq. f_equal; lia.
    + rewrite fmap_app, list_to_set_app_L, <- HsV. simpl.
      by rewrite (right_id_L ∅ (∪)), (comm_L (∪)).
    + rewrite fmap_app, list_to_set_app_L, <- HsF. simpl.
      by rewrite (right_id_L ∅ (∪)), (comm_L (∪)).
    + rewrite fmap_app. apply NoDup_app. split; [done|]. split.
      * intros x Hx Hx'. apply list_elem_of_singleton in Hx'. subst x.
        apply Hseen. rewrite HsF. by apply elem_of_list_to_set.
      * apply NoDup_singleton.
    + intros p Hp. apply elem_of_app in Hp as [Hp|Hp]; apply elem_of_app; auto.
    + rewrite count_true_set2 by done. rewrite length_app, Hct. simpl. lia.
    + apply Forall_app. split; [done|]. apply Forall_singleton. simpl. lia.
    + intros r c. rewrite <- Htc', written_cells_app. simpl. by rewrite app_nil_r.
  - (* a value seen before *)
    eexists. split; [done|]. exists F.
    split; simpl; try done.
    + rewrite fmap_app, list_to_set_app_L, <- HsV. simpl.
      rewrite (right_id_L ∅ (∪)), (comm_L (∪)). symmetry. apply subseteq_union_1_L.
      by apply singleton_subseteq_l.
    + intros p Hp. apply elem_of_app. auto.
Qed.

Lemma outer_body_step (V : list (Z * Z)) (i : Z) (st : state) :
  1 ≤ i ≤ n → Inv n m V st →
  ∃ st', outer_body n m i st = Ok st'
         ∧ Inv n m (V ++ ((λ j, (i, j)) <$> py_range i (m + 1))) st'.
Proof.
  intros Hi HI. unfold outer_body. rewrite zip_fmap_self.
  set (js := py_range i (m + 1)).
  destruct (foldM_invariant (inner_body n i)
              (λ jr, jr.2 = wrap32 (i * jr.1) ∧ i ≤ jr.1 ≤ m)
              (λ pre s, Inv n m (V ++ ((λ jr : Z * Z, (i, jr.1)) <$> pre)) s)
              ((λ j, (j, wrap32 (i * j))) <$> js))
    with (pre := @nil (Z * Z)) (s := st) as (st' & Hrun & HI').
  - apply Forall_fmap, Forall_forall. intros j Hj. simpl. split; [done|].
    apply elem_of_seqZ in Hj. lia.
  - intros pre [j r] s [Hr Hj] Hs. simpl in Hr, Hj. subst r.
    destruct (inner_body_step _ i j s (conj Hi Hj) Hs) as (s' & Hs' & HIs').
    exists s'. split; [done|]. by rewrite fmap_app, app_assoc.
  - by rewrite app_nil_r.
  - exists st'. split; [done|]. simpl in HI'.
    by rewrite <- list_fmap_compose in HI'.
Qed.

Lemma analyzer_run_Inv : ∃ st, analyzer_run n m = Ok st ∧ Inv n m (steps n m) st.
Proof.
  unfold analyzer_run, init_state, np_zeros.
  rewrite !bool_decide_eq_false_2 by lia. simpl.
  destruct (foldM_invariant (outer_body n m) (λ i, 1 ≤ i ≤ n)
              (λ pre s, Inv n m (i ← pre; (λ j, (i, j)) <$> py_range i (m + 1)) s)
              (py_range 1 (n + 1)))
    with (pre := @nil Z)
         (s := mkState ∅ (replicate N (replicate M 0)) (replicate N (replicate M false)) [])
    as (st & Hrun & HI).
  - apply Forall_seqZ. lia.
  - intros pre i s Hi Hs. destruct (outer_body_step _ i s Hi Hs) as (s' & Hs' & HIs').
    exists s'. split; [done|]. rewrite bind_app. simpl. by rewrite app_nil_r.
  - exists []. apply InvF_init.
  - by exists st.
Qed.
End analyzer_invariant.

(** ** The traversal *)

Lemma elem_of_steps (n m i j : Z) :
  (i, j) ∈ steps n m ↔ 1 ≤ i ≤ n ∧ i ≤ j ≤ m.
Proof.
  unfold steps, py_range. rewrite list_elem_of_bind. split.
  - intros (i' & Hj & Hi). apply elem_of_seqZ in Hi.
    apply list_elem_of_fmap in Hj as (j' & ? & Hj). simplify_eq.
    apply elem_of_seqZ in Hj. lia.
  - intros [Hi Hj]. exists i. split.
    + apply list_elem_of_fmap. exists j. split; [done|]. apply elem_of_seqZ. lia.
    + apply elem_of_seqZ. lia.
Qed.

Lemma NoDup_fmap_eq {A B : Type} (f : A → B) (l : list A) (x y : A) :
  NoDup (f <$> l) → x ∈ l → y ∈ l → f x = f y → x = y.
Proof.
  induction l as [|a l IH]; simpl; intros Hnd Hx Hy Hf.
  - by apply elem_of_nil in Hx.
  - apply NoDup_cons in Hnd as [Ha Hnd].
    apply elem_of_cons in Hx as [->|Hx]; apply elem_of_cons in Hy as [->|Hy]; auto.
    + destruct Ha. rewrite Hf. by apply list_elem_of_fmap_2.
    + destruct Ha. rewrite <- Hf. by apply list_elem_of_fmap_2.
Qed.

(** The state the analyzer ends in, for any non-negative size. *)
Lemma analyzer_final (n m : Z) :
  0 ≤ n → 0 ≤ m →
  ∃ st F, analyzer_run n m = Ok st ∧ InvF n m (steps n m) F st.
Proof.
  intros Hn Hm. destruct (analyzer_run_Inv n m Hn Hm) as (st & Hrun & F & HI).
  by exists st, F.
Qed.

Lemma count_unique_of_run (n m : Z) (st : state) :
  analyzer_run n m = Ok st →
  count_unique_multiplication_results n m
  = Ok (seen_results st, size (seen_results st), result_matrix st, is_new_matrix st).
Proof. intros Hrun. unfold count_unique_multiplication_results. by rewrite Hrun. Qed.

(** The values held by the written cells are the values met by the steps. *)
Lemma written_values_seen (n m : Z) (V F : list (Z * Z)) (st : state) :
  InvF n m V F st → written_values st = seen_results st.
Proof.
  intros HI. apply set_eq. intros x. unfold written_values.
  rewrite elem_of_list_to_set, list_elem_of_omap, (inv_seen_V _ _ _ _ _ HI),
    elem_of_list_to_set, list_elem_of_fmap.
  pose proof (inv_V_valid _ _ _ _ _ HI) as Hvalid.
  split.
  - intros ([r c] & Hin & Hget). simpl in Hget.
    apply (inv_tr_cells _ _ _ _ _ HI) in Hin as Hw.
    destruct Hw as (i & j & Hij & Hrc).
    pose proof (proj1 (Forall_forall _ _) Hvalid _ Hij) as [Hi Hj]. simpl in Hi, Hj.
    exists (i, j). split; [|done].
    assert (written n V (Z.of_nat (Z.to_nat r)) (Z.of_nat (Z.to_nat c))) as Hw.
    { rewrite !Z2Nat.id by lia. by exists i, j. }
    apply (inv_rm_written _ _ _ _ _ HI) in Hw. rewrite Hw in Hget. simplify_eq.
    unfold val. simpl. f_equal. rewrite !Z2Nat.id by lia.
    destruct Hrc as [[-> ->]|(_ & -> & ->)]; lia.
  - intros ([i j] & -> & Hij).
    pose proof (proj1 (Forall_forall _ _) Hvalid _ Hij) as [Hi Hj]. simpl in Hi, Hj.
    assert (written n V (i - 1) (j - 1)) as Hw by (exists i, j; auto).
    exists (i - 1, j - 1). split; [by apply (inv_tr_cells _ _ _ _ _ HI)|]. simpl.
    replace (i - 1) with (Z.of_nat (Z.to_nat (i - 1))) in Hw by lia.
    replace (j - 1) with (Z.of_nat (Z.to_nat (j - 1))) in Hw by lia.
    apply (inv_rm_written _ _ _ _ _ HI) in Hw. rewrite Hw.
    unfold val. simpl. rewrite !Z2Nat.id by lia.
    by replace (i - 1 + 1) with i by lia; replace (j - 1 + 1) with j by lia.
Qed.

Lemma size_seen_length (n m : Z) (V F : list (Z * Z)) (st : state) :
  InvF n m V F st → size (seen_results st) = length F.
Proof.
  intros HI. rewrite (inv_seen_F _ _ _ _ _ HI).
  rewrite size_list_to_set by apply (inv_F_nodup _ _ _ _ _ HI).
  apply length_fmap.
Qed.

(** ** The run on the heap follows the run on the loop state *)

Lemma foldM_sim {A S H : Type} (f : A → S → res S) (g : A → H → res H)
    (R : S → H → Prop) (l : list A) :
  (∀ a s s' h, f a s = Ok s' → R s h → ∃ h', g a h = Ok h' ∧ R s' h') →
  ∀ s s' h, foldM f l s = Ok s' → R s h → ∃ h', foldM g l h = Ok h' ∧ R s' h'.
Proof.
  intros Hstep. induction l as [|a l IH]; simpl; intros s s' h Hrun HR.
  - simplify_eq. by exists h.
  - destruct (f a s) as [s1|e] eqn:Hf; [|done]. cbn [mbind res_bind] in Hrun.
    destruct (Hstep _ _ _ _ Hf HR) as (h1 & -> & HR1). cbn [mbind res_bind].
    by apply (IH s1).
Qed.

Lemma heap_setitem_int_ok (a : nat) (r c v : Z) (h : heap) (X X' : matrix Z) :
  h !! a = Some (ObjInt32Matrix X) → setitem2 X r c v = Ok X' →
  heap_setitem_int a r c v h = Ok (<[a := ObjInt32Matrix X']> h).
Proof. intros Ha HX. unfold heap_setitem_int. by rewrite Ha, HX. Qed.

Lemma heap_setitem_bool_ok (a : nat) (r c : Z) (v : bool) (h : heap) (X X' : matrix bool) :
  h !! a = Some (ObjBoolMatrix X) → setitem2 X r c v = Ok X' →
  heap_setitem_bool a r c v h = Ok (<[a := ObjBoolMatrix X']> h).
Proof. intros Ha HX. unfold heap_setitem_bool. by rewrite Ha, HX. Qed.

Lemma heap_inner_body_sim (h0 : heap) (n i : Z) (rf : refs) (jr : Z * Z)
    (st st' : state) (h : heap) :
  refs_distinct rf → inner_body n i jr st = Ok st' → Sim h0 rf st h →
  ∃ h', heap_inner_body n i rf jr h = Ok h' ∧ Sim h0 rf st' h'.
Proof.
  intros (Hsr & Hsn & Hrn) Hrun [Hs Hr Hn Hf].
  destruct jr as [j v]. destruct st as [seen rm nm tr]. simpl in Hs, Hr, Hn.
  unfold inner_body in Hrun. cbn [seen_results result_matrix is_new_matrix trace] in Hrun.
  unfold heap_inner_body.
  destruct (setitem2 rm (i - 1) (j - 1) v) as [rm1|e] eqn:E1; [|done].
  cbn [mbind res_bind] in Hrun.
  rewrite (heap_setitem_int_ok _ _ _ _ _ rm rm1) by done. cbn [mbind res_bind].
  (* the mirror assignment *)
  assert (∃ rm2 tr2 h2,
    (if bool_decide (j ≤ n)
     then rm' ← setitem2 rm1 (j - 1) (i - 1) v;
          Ok (rm', (tr ++ [WriteResult (i - 1) (j - 1)]) ++ [WriteResult (j - 1) (i - 1)])
     else Ok (rm1, tr ++ [WriteResult (i - 1) (j - 1)])) = Ok (rm2, tr2)
    ∧ (if bool_decide (j ≤ n)
       then heap_setitem_int (ref_result rf) (j - 1) (i - 1) v
              (<[ref_result rf := ObjInt32Matrix rm1]> h)
       else Ok (<[ref_result rf := ObjInt32Matrix rm1]> h)) = Ok h2
    ∧ h2 !! ref_result rf = Some (ObjInt32Matrix rm2)
    ∧ ∀ k, k ≠ ref_result rf → h2 !! k = h !! k)
    as (rm2 & tr2 & h2 & Hpure & -> & Hr2 & Hf2).
  { destruct (bool_decide (j ≤ n)).
    - destruct (setitem2 rm1 (j - 1) (i - 1) v) as [rm2|e] eqn:E2; [|done].
      eexists _, _, _. split; [done|].
      rewrite (heap_setitem_int_ok _ _ _ _ _ rm1 rm2) by (by rewrite lookup_insert_eq || done).
      split; [done|]. split; [by rewrite lookup_insert_eq|].
      intros k Hk. by rewrite !lookup_insert_ne.
    - eexists _, _, _. split; [done|]. split; [done|].
      split; [by rewrite lookup_insert_eq|].
      intros k Hk. by rewrite lookup_insert_ne. }
  rewrite Hpure in Hrun. cbn [mbind res_bind] in Hrun. cbn [mbind res_bind].
  unfold heap_contains. rewrite Hf2, Hs by done. cbn [mbind res_bind].
  destruct (decide (v ∈ seen)) as [Hin|Hnin].
  - rewrite bool_decide_eq_false_2 in Hrun by (by intros Hn'; apply Hn').
    rewrite bool_decide_eq_true_2 by done. simpl. simplify_eq.
    exists h2. split; [done|]. split; simpl.
    + by rewrite Hf2.
    + done.
    + by rewrite Hf2.
    + intros k ? ? ?. rewrite Hf2 by done. by apply Hf.
  - rewrite bool_decide_eq_true_2 in Hrun by done.
    rewrite bool_decide_eq_false_2 by done. simpl.
    destruct (setitem2 nm (i - 1) (j - 1) true) as [nm1|e] eqn:E3; [|done].
    cbn [mbind res_bind] in Hrun. simplify_eq.
    rewrite (heap_setitem_bool_ok _ _ _ _ _ nm nm1) by (by rewrite Hf2 || done).
    cbn [mbind res_bind]. unfold heap_add.
    rewrite lookup_insert_ne, Hf2, Hs by done.
    eexists. split; [done|]. split; simpl.
    + by rewrite lookup_insert_eq.
    + by rewrite !lookup_insert_ne.
    + by rewrite lookup_insert_ne, lookup_insert_eq.
    + intros k ? ? ?. rewrite !lookup_insert_ne, Hf2 by done. by apply Hf.
Qed.

Lemma heap_outer_body_sim (h0 : heap) (n m : Z) (rf : refs) (i : Z)
    (st st' : state) (h : heap) :
  refs_distinct rf → outer_body n m i st = Ok st' → Sim h0 rf st h →
  ∃ h', heap_outer_body n m rf i h = Ok h' ∧ Sim h0 rf st' h'.
Proof.
  intros Hd. unfold outer_body, heap_outer_body. apply foldM_sim.
  intros jr s s' h1. by apply heap_inner_body_sim.
Qed.

Lemma heap_init_sim (n m : Z) (h : heap) (rm : matrix Z) (nm : matrix bool) :
  np_zeros 0 n m = Ok rm → np_zeros false n m = Ok nm →
  ∃ rf h',
    heap_init n m h = Ok (rf, h')
    ∧ refs_distinct rf
    ∧ Sim h rf (mkState ∅ rm nm []) h'
    ∧ (ref_seen rf ∉ dom h) ∧ (ref_result rf ∉ dom h) ∧ (ref_is_new rf ∉ dom h).
Proof.
  intros Hrm Hnm. unfold heap_init, alloc. rewrite Hrm. cbn [mbind res_bind].
  rewrite Hnm. cbn [mbind res_bind].
  set (a1 := fresh (dom h)).
  set (h1 := <[a1 := ObjInt32Matrix rm]> h).
  set (a2 := fresh (dom h1)).
  set (h2 := <[a2 := ObjBoolMatrix nm]> h1).
  set (a3 := fresh (dom h2)).
  assert (H1 : a1 ∉ dom h) by apply is_fresh.
  assert (H2 : a2 ∉ dom h1) by apply is_fresh.
  assert (H3 : a3 ∉ dom h2) by apply is_fresh.
  unfold h2 in H3. unfold h1 in H2, H3.
  rewrite !dom_insert_L in H3. rewrite dom_insert_L in H2.
  apply not_elem_of_union in H2 as [H21 H2].
  apply not_elem_of_union in H3 as [H32 H3].
  apply not_elem_of_union in H3 as [H31 H3].
  apply not_elem_of_singleton in H21, H32, H31.
  eexists _, _. split; [done|]. split; [by repeat split|].
  split; [|done].
  split; simpl.
  - by rewrite lookup_insert_eq.
  - unfold h2, h1. rewrite !lookup_insert_ne by done. by rewrite lookup_insert_eq.
  - unfold h2. rewrite lookup_insert_ne by done. by rewrite lookup_insert_eq.
  - intros k ? ? ?. unfold h2, h1. by rewrite !lookup_insert_ne by done.
Qed.

(** A call on any heap returns references to three new objects that hold
    what the run on the loop state computes, and leaves every object that
    was there before as it was. *)
Lemma heap_call_follows (n m : Z) (st : state) (h : heap) :
  analyzer_run n m = Ok st →
  ∃ rf h',
    heap_count_unique_multiplication_results n m h
    = Ok (rf, size (seen_results st), h')
    ∧ contents h' rf (size (seen_results st))
      = Some (seen_results st, size (seen_results st), result_matrix st, is_new_matrix st)
    ∧ ∀ k o, h !! k = Some o → h' !! k = Some o.
Proof.
  unfold analyzer_run, init_state. intros Hrun.
  destruct (np_zeros 0 n m) as [rm|e] eqn:Hrm; [|done]. cbn [mbind res_bind] in Hrun.
  destruct (np_zeros false n m) as [nm|e] eqn:Hnm; [|done]. cbn [mbind res_bind] in Hrun.
  destruct (heap_init_sim n m h rm nm Hrm Hnm)
    as (rf & h0 & Hinit & Hd & Hsim & Hfs & Hfr & Hfn).
  destruct (foldM_sim (outer_body n m) (heap_outer_body n m rf) (Sim h rf)
              (py_range 1 (n + 1))) with (s := mkState ∅ rm nm []) (s' := st) (h := h0)
    as (h' & Hloop & [Hs Hr Hn Hf]); [|done|done|].
  { intros i s s' h1. by apply heap_outer_body_sim. }
  exists rf, h'. unfold heap_count_unique_multiplication_results.
  rewrite Hinit. cbn [mbind res_bind]. rewrite Hloop. cbn [mbind res_bind].
  unfold heap_len, contents. rewrite Hs, Hr, Hn. cbn [mbind res_bind].
  split; [done|]. split; [done|].
  intros k o Hk. rewrite Hf; [done|..]; intros ->; apply elem_of_dom_2 in Hk; done.
Qed.

(** * The claims *)

(** Two small runs. *)
Example one_by_one :
  count_unique_multiplication_results 1 1 = Ok ({[1]}, 1%nat, [[1]], [[true]]).
Proof. by vm_compute. Qed.

Example two_by_four :
  count_unique_multiplication_results 2 4
  = Ok ({[1; 2; 3; 4; 6; 8]}, 6%nat,
        [[1; 2; 3; 4]; [2; 4; 6; 8]],
        [[true; true; true; true]; [false; false; true; true]]).
Proof. by vm_compute. Qed.

(** C2: for positive [n] and [m] the returned count is the cardinality of
    the returned set, the number of true entries of the returned
    first-occurrence matrix, and the number of distinct values held by the
    cells of the product matrix that the traversal wrote. *)
Theorem count_is_set_size_true_cells_and_written_values (n m : Z) :
  0 < n → 0 < m →
  ∃ st a,
    analyzer_run n m = Ok st
    ∧ count_unique_multiplication_results n m = Ok a
    ∧ a_result a = result_matrix st
    ∧ a_count a = size (a_set a)
    ∧ a_count a = count_true (a_is_new a)
    ∧ a_count a = size (written_values st).
Proof.
  intros Hn Hm. destruct (analyzer_final n m) as (st & F & Hrun & HI); [lia..|].
  exists st, (seen_results st, size (seen_results st), result_matrix st, is_new_matrix st).
  split; [done|]. split; [by apply count_unique_of_run|].
  unfold a_result, a_count, a_set, a_is_new. simpl.
  split; [done|]. split; [done|]. split.
  - rewrite (inv_count _ _ _ _ _ HI). by eapply size_seen_length.
  - by erewrite written_values_seen.
Qed.

Lemma count_is_set_size_true_cells_and_written_values_witness :
  ∃ st a,
    analyzer_run 2 4 = Ok st
    ∧ count_unique_multiplication_results 2 4 = Ok a
    ∧ a_result a = result_matrix st
    ∧ a_count a = size (a_set a)
    ∧ a_count a = count_true (a_is_new a)
    ∧ a_count a = size (written_values st).
Proof. apply (count_is_set_size_true_cells_and_written_values 2 4); lia. Defined.

(** Which cells of the product matrix end up written: row [i] is filled
    when [i ≤ m] and keeps its zeros otherwise. *)
Lemma written_steps (n m i j : Z) :
  1 ≤ i ≤ n → 1 ≤ j ≤ m →
  written n (steps n m) (i - 1) (j - 1) ↔ i ≤ m.
Proof.
  intros Hi Hj. unfold written. split.
  - intros (i' & j' & Hin & Hrc). apply elem_of_steps in Hin. lia.
  - intros Him. destruct (decide (i ≤ j)).
    + exists i, j. split; [apply elem_of_steps; lia|by left].
    + exists j, i. split; [apply elem_of_steps; lia|right; lia].
Qed.

Lemma result_matrix_cell (n m : Z) (F : list (Z * Z)) (st : state) (i j : Z) :
  InvF n m (steps n m) F st → 1 ≤ i ≤ n → 1 ≤ j ≤ m →
  get2 (result_matrix st) (Z.to_nat (i - 1)) (Z.to_nat (j - 1))
  = Some (if bool_decide (i ≤ m) then wrap32 (i * j) else 0).
Proof.
  intros HI Hi Hj. pose proof (written_steps n m i j Hi Hj) as Hw.
  replace (i - 1) with (Z.of_nat (Z.to_nat (i - 1))) in Hw by lia.
  replace (j - 1) with (Z.of_nat (Z.to_nat (j - 1))) in Hw by lia.
  case_bool_decide as Him.
  - rewrite (inv_rm_written _ _ _ _ _ HI) by by apply Hw.
    rewrite !Z2Nat.id by lia.
    by replace (i - 1 + 1) with i by lia; replace (j - 1 + 1) with j by lia.
  - apply (inv_rm_untouched _ _ _ _ _ HI); [lia|lia|]. by rewrite Hw.
Qed.

(** The product matrix as the analyzer returns it. *)
Lemma returned_result_matrix (n m : Z) :
  0 < n → 0 < m →
  ∃ a, count_unique_multiplication_results n m = Ok a
       ∧ ∀ i j, 1 ≤ i ≤ n → 1 ≤ j ≤ m →
           get2 (a_result a) (Z.to_nat (i - 1)) (Z.to_nat (j - 1))
           = Some (if bool_decide (i ≤ m) then wrap32 (i * j) else 0).
Proof.
  intros Hn Hm. destruct (analyzer_final n m) as (st & F & Hrun & HI); [lia..|].
  eexists. split; [by apply count_unique_of_run|].
  intros i j Hi Hj. by eapply result_matrix_cell.
Qed.

(** C3, at the input [n = 2], [m = 1]: the analyzer returns the product
    matrix [[1]; [0]], whose cell in row 2, column 1 was never written and
    holds 0 instead of the product 2. *)
Theorem product_matrix_row_beyond_columns_unwritten :
  ∃ a, count_unique_multiplication_results 2 1 = Ok a
       ∧ a_result a = [[1]; [0]]
       ∧ get2 (a_result a) 1 0 = Some 0
       ∧ get2 (a_result a) 1 0 ≠ Some (2 * 1).
Proof. eexists. split; [by vm_compute|]. by vm_compute. Qed.

(** What holds of C3: with no more rows than columns and products within
    the 32-bit range, every cell holds its product. *)
Lemma product_matrix_full_when_wide (n m : Z) :
  0 < n → n ≤ m → n * m ≤ max_int32 →
  ∃ a, count_unique_multiplication_results n m = Ok a
       ∧ ∀ i j, 1 ≤ i ≤ n → 1 ≤ j ≤ m →
           get2 (a_result a) (Z.to_nat (i - 1)) (Z.to_nat (j - 1)) = Some (i * j).
Proof.
  intros Hn Hnm Hmax. destruct (returned_result_matrix n m) as (a & Ha & Hcell); [lia..|].
  exists a. split; [done|]. intros i j Hi Hj. rewrite Hcell by done.
  rewrite bool_decide_eq_true_2 by lia. rewrite wrap32_small; [done|].
  unfold max_int32 in *. nia.
Qed.

(** C4 as amended: for all [i], [j] up to [min n m] the cells [(i, j)] and
    [(j, i)] hold the same value, the product [i * j] reduced to a signed
    32-bit integer; it is the product itself when that does not exceed
    [2^31 - 1]. *)
Theorem mirror_cells_hold_wrapped_product (n m : Z) :
  0 < n → 0 < m →
  ∃ a, count_unique_multiplication_results n m = Ok a
       ∧ ∀ i j, 1 ≤ i ≤ Z.min n m → 1 ≤ j ≤ Z.min n m →
           get2 (a_result a) (Z.to_nat (i - 1)) (Z.to_nat (j - 1)) = Some (wrap32 (i * j))
           ∧ get2 (a_result a) (Z.to_nat (j - 1)) (Z.to_nat (i - 1)) = Some (wrap32 (i * j))
           ∧ (i * j ≤ max_int32 → wrap32 (i * j) = i * j).
Proof.
  intros Hn Hm. destruct (returned_result_matrix n m) as (a & Ha & Hcell); [lia..|].
  exists a. split; [done|]. intros i j Hi Hj.
  rewrite !Hcell by lia. rewrite !bool_decide_eq_true_2 by lia.
  split; [done|]. split; [by rewrite (Z.mul_comm j i)|].
  intros Hmax. apply wrap32_small. unfold max_int32 in *. nia.
Qed.

Lemma mirror_cells_hold_wrapped_product_witness :
  ∃ a, count_unique_multiplication_results 3 2 = Ok a
       ∧ ∀ i j, 1 ≤ i ≤ Z.min 3 2 → 1 ≤ j ≤ Z.min 3 2 →
           get2 (a_result a) (Z.to_nat (i - 1)) (Z.to_nat (j - 1)) = Some (wrap32 (i * j))
           ∧ get2 (a_result a) (Z.to_nat (j - 1)) (Z.to_nat (i - 1)) = Some (wrap32 (i * j))
           ∧ (i * j ≤ max_int32 → wrap32 (i * j) = i * j).
Proof. apply (mirror_cells_hold_wrapped_product 3 2); lia. Defined.

(** C4 as stated fails at [n = m = 46341], [i = j = 46341]: the diagonal
    cell holds 46341 * 46341 = 2147488281 reduced modulo 2^32, which is
    -2147479015. *)
Lemma mirror_cell_overflows_at_46341 :
  ∃ a, count_unique_multiplication_results 46341 46341 = Ok a
       ∧ get2 (a_result a) (Z.to_nat (46341 - 1)) (Z.to_nat (46341 - 1))
         = Some (-2147479015)
       ∧ get2 (a_result a) (Z.to_nat (46341 - 1)) (Z.to_nat (46341 - 1))
         ≠ Some (46341 * 46341).
Proof.
  destruct (returned_result_matrix 46341 46341) as (a & Ha & Hcell); [lia..|].
  exists a. split; [done|].
  assert (Hv : get2 (a_result a) (Z.to_nat (46341 - 1)) (Z.to_nat (46341 - 1))
               = Some (-2147479015)).
  { rewrite Hcell by lia. rewrite bool_decide_eq_true_2 by lia.
    f_equal. }
  split; [done|]. rewrite Hv. intros Heq. injection Heq. lia.
Qed.

(** C5: for positive [n] and [m], every cell strictly below the diagonal
    (row [r] greater than column [c], counted from 1) of the returned
    first-occurrence matrix is false. *)
Theorem below_diagonal_never_first_occurrence (n m : Z) :
  0 < n → 0 < m →
  ∃ a, count_unique_multiplication_results n m = Ok a
       ∧ ∀ r c, 1 ≤ c → c < r → r ≤ n → c ≤ m →
           get2 (a_is_new a) (Z.to_nat (r - 1)) (Z.to_nat (c - 1)) = Some false.
Proof.
  intros Hn Hm. destruct (analyzer_final n m) as (st & F & Hrun & HI); [lia..|].
  eexists. split; [by apply count_unique_of_run|].
  unfold a_is_new. simpl. intros r c Hc Hcr Hr Hcm.
  destruct (get2_is_Some (Z.to_nat n) (Z.to_nat m) (is_new_matrix st)
              (Z.to_nat (r - 1)) (Z.to_nat (c - 1))) as [[|] Hget];
    [apply (inv_nm_shape _ _ _ _ _ HI)|lia|lia| |done].
  exfalso. apply (inv_nm _ _ _ _ _ HI) in Hget.
  apply (inv_F_sub _ _ _ _ _ HI), elem_of_steps in Hget. lia.
Qed.

Lemma below_diagonal_never_first_occurrence_witness :
  ∃ a, count_unique_multiplication_results 3 3 = Ok a
       ∧ ∀ r c, 1 ≤ c → c < r → r ≤ 3 → c ≤ 3 →
           get2 (a_is_new a) (Z.to_nat (r - 1)) (Z.to_nat (c - 1)) = Some false.
Proof. apply (below_diagonal_never_first_occurrence 3 3); lia. Defined.

(** C6: for [n = 3], [m = 3] the analyzer returns the set {1,2,3,4,6,9},
    the count 6, and a first-occurrence matrix that is true exactly at the
    cells (1,1), (1,2), (1,3), (2,2), (2,3), (3,3). *)
Theorem three_by_three :
  ∃ a, count_unique_multiplication_results 3 3 = Ok a
       ∧ a_set a = {[1; 2; 3; 4; 6; 9]}
       ∧ a_count a = 6%nat
       ∧ a_is_new a = [[true; true; true]; [false; true; true]; [false; false; true]]
       ∧ a_result a = [[1; 2; 3]; [2; 4; 6]; [3; 6; 9]].
Proof. eexists. split; [by vm_compute|]. by vm_compute. Qed.

(** C9: for positive [n] and [m] there is one result, fixed by [n] and [m]
    alone, such that two calls in sequence, started on any heap whatever,
    both return a set, a count and two matrices equal to it; each call
    builds its result in new objects and leaves every object that was in the
    heap before it unchanged, so the result of the first call is still
    intact after the second. *)
Theorem calls_depend_only_on_inputs (n m : Z) :
  0 < n → 0 < m →
  ∃ a,
    count_unique_multiplication_results n m = Ok a
    ∧ ∀ h : heap,
        ∃ rf1 count1 h1 rf2 count2 h2,
          heap_count_unique_multiplication_results n m h = Ok (rf1, count1, h1)
          ∧ heap_count_unique_multiplication_results n m h1 = Ok (rf2, count2, h2)
          ∧ contents h1 rf1 count1 = Some a
          ∧ contents h2 rf2 count2 = Some a
          ∧ contents h2 rf1 count1 = Some a
          ∧ (∀ k o, h !! k = Some o → h1 !! k = Some o)
          ∧ (∀ k o, h1 !! k = Some o → h2 !! k = Some o).
Proof.
  intros Hn Hm. destruct (analyzer_final n m) as (st & F & Hrun & _); [lia..|].
  eexists. split; [by apply count_unique_of_run|]. intros h.
  destruct (heap_call_follows n m st h Hrun) as (rf1 & h1 & Hcall1 & Hc1 & Hkeep1).
  destruct (heap_call_follows n m st h1 Hrun) as (rf2 & h2 & Hcall2 & Hc2 & Hkeep2).
  exists rf1, (size (seen_results st)), h1, rf2, (size (seen_results st)), h2.
  repeat split; try done.
  unfold contents in Hc1 |- *.
  destruct (h1 !! ref_seen rf1) as [[]|] eqn:E1; try done.
  destruct (h1 !! ref_result rf1) as [[]|] eqn:E2; try done.
  destruct (h1 !! ref_is_new rf1) as [[]|] eqn:E3; try done.
  by rewrite (Hkeep2 _ _ E1), (Hkeep2 _ _ E2), (Hkeep2 _ _ E3).
Qed.

Lemma calls_depend_only_on_inputs_witness :
  ∃ a,
    count_unique_multiplication_results 3 2 = Ok a
    ∧ ∀ h : heap,
        ∃ rf1 count1 h1 rf2 count2 h2,
          heap_count_unique_multiplication_results 3 2 h = Ok (rf1, count1, h1)
          ∧ heap_count_unique_multiplication_results 3 2 h1 = Ok (rf2, count2, h2)
          ∧ contents h1 rf1 count1 = Some a
          ∧ contents h2 rf2 count2 = Some a
          ∧ contents h2 rf1 count1 = Some a
          ∧ (∀ k o, h !! k = Some o → h1 !! k = Some o)
          ∧ (∀ k o, h1 !! k = Some o → h2 !! k = Some o).
Proof. apply (calls_depend_only_on_inputs 3 2); lia. Defined.

Lemma np_zeros_intp_Ok {A : Type} (available : Z → bool) (itemsize : Z) (zero : A)
    (n m : Z) (X : matrix A) :
  np_zeros_intp available itemsize zero n m = Ok X →
  np_zeros zero n m = Ok X.
Proof.
  unfold np_zeros_intp, np_zeros. destruct (bool_decide (n < 0 ∨ m < 0)); [done|].
  case_bool_decide; [done|]. by destruct (available _).
Qed.

(** C10 as amended: for positive [n] and [m] not above [2^31 - 1], once the
    two allocations have succeeded, the analyzer runs to its end without an
    [IndexError], and every write it made, to either matrix, direct or
    mirrored, has its row in [0, n) and its column in [0, m). *)
Theorem analyzer_accesses_in_bounds (available : Z → bool) (n m : Z)
    (rm : matrix Z) (nm : matrix bool) :
  0 < n ≤ max_int32 → 0 < m ≤ max_int32 →
  np_zeros_intp available 4 0 n m = Ok rm →
  np_zeros_intp available 1 false n m = Ok nm →
  ∃ st,
    analyzer_run_intp available n m = Ok st
    ∧ analyzer_run n m = Ok st
    ∧ Forall (in_bounds n m) (trace st)
    ∧ ∀ i j, (i, j) ∈ steps n m →
        WriteResult (i - 1) (j - 1) ∈ trace st
        ∧ (j ≤ n → WriteResult (j - 1) (i - 1) ∈ trace st).
Proof.
  intros Hn Hm Hrm Hnm. destruct (analyzer_final n m) as (st & F & Hrun & HI); [lia..|].
  exists st. split; [|split; [done|]].
  { unfold analyzer_run_intp. rewrite Hrm, Hnm. cbn [mbind res_bind].
    unfold analyzer_run, init_state in Hrun.
    by rewrite (np_zeros_intp_Ok _ _ _ _ _ _ Hrm), (np_zeros_intp_Ok _ _ _ _ _ _ Hnm)
      in Hrun. }
  split; [apply (inv_tr_bounds _ _ _ _ _ HI)|].
  assert (Hin : ∀ r c, written n (steps n m) r c → WriteResult r c ∈ trace st).
  { intros r c Hw. apply (inv_tr_cells _ _ _ _ _ HI) in Hw.
    apply list_elem_of_omap in Hw as ([r' c'|r' c'] & Hin & Heq); by simplify_eq. }
  intros i j Hij. split.
  - apply Hin. exists i, j. auto.
  - intros Hjn. apply Hin. exists i, j. auto.
Qed.

Lemma analyzer_accesses_in_bounds_witness :
  ∃ st,
    analyzer_run_intp (λ bytes, bool_decide (bytes ≤ 2 ^ 30)) 2 3 = Ok st
    ∧ analyzer_run 2 3 = Ok st
    ∧ Forall (in_bounds 2 3) (trace st)
    ∧ ∀ i j, (i, j) ∈ steps 2 3 →
        WriteResult (i - 1) (j - 1) ∈ trace st
        ∧ (j ≤ 2 → WriteResult (j - 1) (i - 1) ∈ trace st).
Proof.
  apply (analyzer_accesses_in_bounds (λ bytes, bool_decide (bytes ≤ 2 ^ 30)) 2 3
           [[0; 0; 0]; [0; 0; 0]] [[false; false; false]; [false; false; false]]).
  - unfold max_int32. lia.
  - unfold max_int32. lia.
  - reflexivity.
  - reflexivity.
Defined.

(** C10 as stated fails at [n = m = 2^31]: the [int32] matrix would take
    [2^64] bytes, [np.zeros] raises [ValueError] on line 49, however much
    memory there is, and the analyzer returns nothing. *)
Lemma allocation_fails_at_two_to_31 :
  0 < 2 ^ 31
  ∧ analyzer_run_intp (λ _, true) (2 ^ 31) (2 ^ 31) = Err ValueError.
Proof.
  split; [lia|]. unfold analyzer_run_intp, np_zeros_intp.
  rewrite (bool_decide_eq_false_2 (2 ^ 31 < 0 ∨ 2 ^ 31 < 0)) by lia.
  rewrite !(bool_decide_eq_false_2 (2 ^ 31 = 0)) by lia.
  rewrite (bool_decide_eq_true_2 (max_intp < 4 * 2 ^ 31 * 2 ^ 31)); [done|].
  unfold max_intp. lia.
Qed.

Lemma elem_of_table_products (n m x : Z) :
  x ∈ table_products n m ↔ ∃ i j, 1 ≤ i ≤ n ∧ 1 ≤ j ≤ m ∧ x = i * j.
Proof.
  unfold table_products. rewrite elem_of_list_to_set, list_elem_of_bind. split.
  - intros (i & Hx & Hi). apply list_elem_of_bind in Hx as (j & Hx & Hj).
    apply list_elem_of_singleton in Hx. apply elem_of_seqZ in Hi, Hj.
    exists i, j. lia.
  - intros (i & j & Hi & Hj & ->). exists i. split; [|apply elem_of_seqZ; lia].
    apply list_elem_of_bind. exists j. split; [|apply elem_of_seqZ; lia].
    by apply list_elem_of_singleton.
Qed.

(** C1, at the input [n = 2], [m = 1]: the table has the two distinct
    products 1 and 2, and the analyzer returns the set {1} and the count 1. *)
Theorem count_misses_rows_beyond_columns :
  ∃ a, count_unique_multiplication_results 2 1 = Ok a
       ∧ a_set a = {[1]}
       ∧ a_count a = 1%nat
       ∧ table_products 2 1 = {[1; 2]}
       ∧ size (table_products 2 1) = 2%nat.
Proof. eexists. split; [by vm_compute|]. by vm_compute. Qed.

(** What holds of C1: with no more rows than columns and products within
    the 32-bit range, the returned set is the set of the products of the
    table and the count is its cardinality. *)
Lemma count_is_table_products_when_wide (n m : Z) :
  0 < n → n ≤ m → n * m ≤ max_int32 →
  ∃ a, count_unique_multiplication_results n m = Ok a
       ∧ a_set a = table_products n m
       ∧ a_count a = size (table_products n m).
Proof.
  intros Hn Hnm Hmax. destruct (analyzer_final n m) as (st & F & Hrun & HI); [lia..|].
  eexists. split; [by apply count_unique_of_run|].
  unfold a_set, a_count. simpl.
  assert (Heq : seen_results st = table_products n m); [|by rewrite Heq].
  apply set_eq. intros x.
  rewrite (inv_seen_V _ _ _ _ _ HI), elem_of_list_to_set, list_elem_of_fmap,
    elem_of_table_products.
  assert (Hsmall : ∀ i j, 1 ≤ i ≤ n → 1 ≤ j ≤ m → wrap32 (i * j) = i * j).
  { intros i j Hi Hj. apply wrap32_small. unfold max_int32 in *. nia. }
  split.
  - intros ([i j] & -> & Hij). apply elem_of_steps in Hij.
    exists i, j. unfold val. simpl. rewrite Hsmall by lia. lia.
  - intros (i & j & Hi & Hj & ->). destruct (decide (i ≤ j)).
    + exists (i, j). unfold val. simpl. rewrite Hsmall by lia.
      split; [done|]. apply elem_of_steps. lia.
    + exists (j, i). unfold val. simpl. rewrite Hsmall by lia.
      split; [lia|]. apply elem_of_steps. lia.
Qed.





(** ** The cell loop of the renderer *)


Lemma py_range_0 (m : Z) : py_range 0 m = Z.of_nat <$> seq 0 (Z.to_nat m).
Proof.
  unfold py_range, seqZ. rewrite Z.sub_0_r.
  apply list_fmap_ext. intros _ k _. lia.
Qed.

Lemma foldM_cons {A S : Type} (f : A → S → res S) (a : A) (l : list A) (s : S) :
  foldM f (a :: l) s = (s' ← f a s; foldM f l s').
Proof. done. Qed.

Lemma draw_cell_in (y : Z) (row : list bool) (k : nat) (b : bool) (ax : list patch) :
  row !! k = Some b →
  draw_cell y row (Z.of_nat k) ax = Ok (ax ++ [mkPatch (Z.of_nat k, y) (cell_color b)]).
Proof. intros Hk. unfold draw_cell. by rewrite (getitem_in _ _ b). Qed.

Lemma draw_cell_loop (y : Z) (l1 l2 : list bool) (ax : list patch) :
  foldM (draw_cell y (l1 ++ l2)) (Z.of_nat <$> seq (length l1) (length l2)) ax
  = Ok (ax ++ imap (λ c b, mkPatch (Z.of_nat (length l1 + c), y) (cell_color b)) l2).
Proof.
  revert l1 ax. induction l2 as [|b l2 IH]; intros l1 ax.
  - simpl. by rewrite app_nil_r.
  - cbn [length seq]. rewrite fmap_cons, foldM_cons.
    rewrite (draw_cell_in _ _ _ b) by by apply list_lookup_middle.
    rewrite imap_cons. cbn [mbind res_bind].
    rewrite (cons_middle b l1 l2), app_assoc.
    replace (S (length l1)) with (length (l1 ++ [b])) by (rewrite length_app; simpl; lia).
    rewrite IH, <- app_assoc. simpl. do 3 f_equal.
    + do 2 f_equal. lia.
    + apply imap_ext. intros c b' _. simpl. do 2 f_equal.
      rewrite length_app. simpl. lia.
Qed.

Lemma draw_row_loop (n m : Z) (X1 X2 : matrix bool) (ax : list patch) :
  0 ≤ m → Forall (λ row, length row = Z.to_nat m) X2 →
  foldM (draw_row n m (X1 ++ X2)) (Z.of_nat <$> seq (length X1) (length X2)) ax
  = Ok (ax ++ concat (imap (λ r row,
          imap (λ c b, mkPatch (Z.of_nat c, n - 1 - Z.of_nat (length X1 + r)) (cell_color b))
               row) X2)).
Proof.
  intros Hm. revert X1 ax. induction X2 as [|row X2 IH]; intros X1 ax Hlen.
  - simpl. by rewrite app_nil_r.
  - apply Forall_cons in Hlen as [Hrow Hlen].
    cbn [length seq]. rewrite fmap_cons, foldM_cons.
    assert (Hdraw : draw_row n m (X1 ++ row :: X2) (Z.of_nat (length X1)) ax
                    = Ok (ax ++ imap (λ c b, mkPatch (Z.of_nat c, n - 1 - Z.of_nat (length X1))
                                                      (cell_color b)) row)).
    { unfold draw_row. rewrite (getitem_in _ _ row) by by apply list_lookup_middle.
      cbn [mbind res_bind]. rewrite py_range_0, <- Hrow.
      by rewrite (draw_cell_loop _ [] row). }
    rewrite Hdraw, imap_cons. cbn [mbind res_bind concat].
    rewrite (cons_middle row X1 X2), app_assoc.
    replace (S (length X1)) with (length (X1 ++ [row])) by (rewrite length_app; simpl; lia).
    rewrite IH by done. rewrite <- !app_assoc. do 3 f_equal.
    + apply imap_ext. intros c b _. simpl. do 3 f_equal. lia.
    + f_equal. apply imap_ext. intros r row' _. simpl.
      apply imap_ext. intros c b _. simpl. do 3 f_equal.
      rewrite length_app. simpl. lia.
Qed.

Lemma draw_cells_patches (n m : Z) (X : matrix bool) :
  0 ≤ n → 0 ≤ m → shape (Z.to_nat n) (Z.to_nat m) X →
  draw_cells n m X = Ok (patches_of n X).
Proof.
  intros Hn Hm [HN HM]. unfold draw_cells.
  rewrite py_range_0, <- HN.
  by rewrite (draw_row_loop n m [] X) by done.
Qed.

Lemma elem_of_patches_of (n : Z) (X : matrix bool) (p : patch) :
  p ∈ patches_of n X ↔
  ∃ (r c : nat) (b : bool),
    get2 X r c = Some b ∧ p = mkPatch (Z.of_nat c, n - 1 - Z.of_nat r) (cell_color b).
Proof.
  unfold patches_of, get2. rewrite list_elem_of_In, in_concat. split.
  - intros (ps & Hps & Hp). apply list_elem_of_In in Hps, Hp.
    apply elem_of_lookup_imap in Hps as (r & row & -> & Hrow).
    apply elem_of_lookup_imap in Hp as (c & b & -> & Hb).
    exists r, c, b. by rewrite Hrow.
  - intros (r & c & b & Hget & ->).
    destruct (X !! r) as [row|] eqn:Hrow; [|done]. simpl in Hget.
    eexists. split.
    + apply list_elem_of_In. apply elem_of_lookup_imap. eauto.
    + apply list_elem_of_In. apply elem_of_lookup_imap. eauto.
Qed.

Lemma facecolor_row (h : nat → Z * Z) (row : list bool) :
  facecolor <$> imap (λ c b, mkPatch (h c) (cell_color b)) row = cell_color <$> row.
Proof.
  revert h. induction row as [|b row IH]; intros h; [done|].
  rewrite imap_cons, !fmap_cons. simpl. f_equal. apply (IH (h ∘ S)).
Qed.

Lemma facecolor_rows (h : nat → nat → Z * Z) (X : matrix bool) :
  facecolor <$> concat (imap (λ r row, imap (λ c b, mkPatch (h r c) (cell_color b)) row) X)
  = cell_color <$> concat X.
Proof.
  revert h. induction X as [|row X IH]; intros h; [done|].
  rewrite imap_cons. cbn [concat]. rewrite !fmap_app. f_equal.
  - apply (facecolor_row (h 0%nat)).
  - apply (IH (h ∘ S)).
Qed.

Lemma facecolor_patches_of (n : Z) (X : matrix bool) :
  facecolor <$> patches_of n X = cell_color <$> concat X.
Proof. apply (facecolor_rows (λ r c, (Z.of_nat c, n - 1 - Z.of_nat r))). Qed.

Lemma cell_color_new (b : bool) : cell_color b = new_color ↔ b = true.
Proof. by destruct b. Qed.

Lemma new_colored_count (ps : list patch) (bs : list bool) :
  facecolor <$> ps = cell_color <$> bs →
  length (filter (λ p, facecolor p = new_color) ps)
  = length (filter (λ b, b = true) bs).
Proof.
  revert bs. induction ps as [|p ps IH]; intros [|b bs] Heq; [done..|].
  rewrite !fmap_cons in Heq. injection Heq as Hp Hps.
  rewrite !filter_cons. destruct b; simpl in Hp.
  - rewrite !decide_True by done. simpl. by rewrite (IH bs).
  - rewrite !decide_False; [by apply IH|done|by rewrite Hp].
Qed.

Lemma length_concat_shape {A : Type} (N M : nat) (X : matrix A) :
  shape N M X → length (concat X) = (N * M)%nat.
Proof.
  intros [<- HM]. induction HM as [|row X Hrow _ IH]; simpl; [done|].
  by rewrite length_app, IH, Hrow.
Qed.

(** C7: for positive [n] and [m] the renderer draws one patch per cell, at
    [(x, y) = (c, n - 1 - r)] for the cell in row [r] and column [c]
    (counted from 0), coloured with the new colour iff the first-occurrence
    matrix is true there and with the repeat colour otherwise; the number of
    patches in the new colour is the returned count, and every value of the
    returned set is the value of exactly one cell drawn in the new colour. *)
Theorem renderer_colors_first_occurrences (n m : Z) :
  0 < n → 0 < m →
  ∃ a ax,
    count_unique_multiplication_results n m = Ok a
    ∧ visualize_multiplication_table n m = Ok (ax, (a_count a, a_set a))
    ∧ (∀ p, p ∈ ax ↔
         ∃ (r c : nat) (b : bool),
           get2 (a_is_new a) r c = Some b
           ∧ p = mkPatch (Z.of_nat c, n - 1 - Z.of_nat r) (cell_color b))
    ∧ (∀ b, (cell_color b = new_color ↔ b = true)
            ∧ (cell_color b = repeat_color ↔ b = false))
    ∧ length ax = (Z.to_nat n * Z.to_nat m)%nat
    ∧ length (filter (λ p, facecolor p = new_color) ax) = a_count a
    ∧ (∀ v, v ∈ a_set a →
         exists! rc : nat * nat,
           mkPatch (Z.of_nat rc.2, n - 1 - Z.of_nat rc.1) new_color ∈ ax
           ∧ get2 (a_result a) rc.1 rc.2 = Some v).
Proof.
  intros Hn Hm. destruct (analyzer_final n m) as (st & F & Hrun & HI); [lia..|].
  pose proof (inv_nm_shape _ _ _ _ _ HI) as Hshape.
  exists (seen_results st, size (seen_results st), result_matrix st, is_new_matrix st).
  exists (patches_of n (is_new_matrix st)).
  unfold visualize_multiplication_table.
  rewrite (count_unique_of_run n m st Hrun).
  unfold a_set, a_count, a_result, a_is_new. cbn [mbind res_bind fst snd].
  rewrite draw_cells_patches by (done || lia). cbn [mbind res_bind].
  assert (Hred : ∀ r c : nat,
    mkPatch (Z.of_nat c, n - 1 - Z.of_nat r) new_color ∈ patches_of n (is_new_matrix st)
    ↔ (Z.of_nat r + 1, Z.of_nat c + 1) ∈ F).
  { intros r c. rewrite elem_of_patches_of, <- (inv_nm _ _ _ _ _ HI). split.
    - intros (r' & c' & b & Hget & Heq). injection Heq as Hc Hr Hb.
      assert (r' = r) as -> by lia. assert (c' = c) as -> by lia.
      symmetry in Hb. apply cell_color_new in Hb. by subst b.
    - intros Hget. by exists r, c, true. }
  split; [done|]. split; [done|]. split; [apply elem_of_patches_of|].
  split; [by intros []|]. split; [|split].
  - rewrite <- (length_fmap facecolor), facecolor_patches_of, length_fmap.
    by apply length_concat_shape.
  - rewrite (new_colored_count _ (concat (is_new_matrix st)))
      by apply facecolor_patches_of.
    fold (count_true (is_new_matrix st)).
    rewrite (inv_count _ _ _ _ _ HI). symmetry. by eapply size_seen_length.
  - intros v Hv. rewrite (inv_seen_F _ _ _ _ _ HI), elem_of_list_to_set in Hv.
    apply list_elem_of_fmap in Hv as ([i j] & -> & Hij).
    assert (Hval : ∀ r c : nat, (Z.of_nat r + 1, Z.of_nat c + 1) ∈ F →
      get2 (result_matrix st) r c = Some (val (Z.of_nat r + 1, Z.of_nat c + 1))).
    { intros r c HF. apply (inv_rm_written _ _ _ _ _ HI).
      exists (Z.of_nat r + 1), (Z.of_nat c + 1).
      split; [by apply (inv_F_sub _ _ _ _ _ HI)|]. left. lia. }
    pose proof (inv_F_sub _ _ _ _ _ HI _ Hij) as Hstep. apply elem_of_steps in Hstep.
    assert (Hij' : (Z.of_nat (Z.to_nat (i - 1)) + 1, Z.of_nat (Z.to_nat (j - 1)) + 1) = (i, j))
      by (f_equal; lia).
    exists (Z.to_nat (i - 1), Z.to_nat (j - 1)). split.
    + cbn [fst snd]. split.
      * apply Hred. by rewrite Hij'.
      * rewrite Hval; by rewrite Hij'.
    + intros [r c]. cbn [fst snd]. intros [Hp Hget].
      apply Hred in Hp. rewrite (Hval r c Hp) in Hget. injection Hget as Hget.
      pose proof (NoDup_fmap_eq val F _ _ (inv_F_nodup _ _ _ _ _ HI) Hp Hij Hget) as Heq.
      injection Heq as Hr Hc. f_equal; lia.
Qed.

Lemma renderer_colors_first_occurrences_witness :
  ∃ a ax,
    count_unique_multiplication_results 2 3 = Ok a
    ∧ visualize_multiplication_table 2 3 = Ok (ax, (a_count a, a_set a))
    ∧ (∀ p, p ∈ ax ↔
         ∃ (r c : nat) (b : bool),
           get2 (a_is_new a) r c = Some b
           ∧ p = mkPatch (Z.of_nat c, 2 - 1 - Z.of_nat r) (cell_color b))
    ∧ (∀ b, (cell_color b = new_color ↔ b = true)
            ∧ (cell_color b = repeat_color ↔ b = false))
    ∧ length ax = (Z.to_nat 2 * Z.to_nat 3)%nat
    ∧ length (filter (λ p, facecolor p = new_color) ax) = a_count a
    ∧ (∀ v, v ∈ a_set a →
         exists! rc : nat * nat,
           mkPatch (Z.of_nat rc.2, 2 - 1 - Z.of_nat rc.1) new_color ∈ ax
           ∧ get2 (a_result a) rc.1 rc.2 = Some v).
Proof. apply (renderer_colors_first_occurrences 2 3); lia. Defined.

(** * Further properties *)

(** ** A rule for further loop invariants *)

(** Any property of the steps done so far that holds of the initial state and
    is kept by one iteration of the inner loop holds when the loops are
    over. *)
Lemma analyzer_run_invariant (n m : Z) (Q : list (Z * Z) → state → Prop) :
  0 ≤ n → 0 ≤ m →
  (∀ st, init_state n m = Ok st → Q [] st) →
  (∀ V i j st st',
     valid_step n m (i, j) → Inv n m V st → Q V st →
     inner_body n i (j, wrap32 (i * j)) st = Ok st' → Q (V ++ [(i, j)]) st') →
  ∀ st, analyzer_run n m = Ok st → Q (steps n m) st.
Proof.
  intros Hn Hm Hinit Hstep st Hrun.
  assert (Hinner : ∀ V i s, 1 ≤ i ≤ n → Inv n m V s → Q V s →
    ∃ s', outer_body n m i s = Ok s'
          ∧ Inv n m (V ++ ((λ j, (i, j)) <$> py_range i (m + 1))) s'
          ∧ Q (V ++ ((λ j, (i, j)) <$> py_range i (m + 1))) s').
  { intros V i s Hi HI HQ. unfold outer_body. rewrite zip_fmap_self.
    destruct (foldM_invariant (inner_body n i)
                (λ jr, jr.2 = wrap32 (i * jr.1) ∧ i ≤ jr.1 ≤ m)
                (λ pre s, Inv n m (V ++ ((λ jr : Z * Z, (i, jr.1)) <$> pre)) s
                          ∧ Q (V ++ ((λ jr : Z * Z, (i, jr.1)) <$> pre)) s)
                ((λ j, (j, wrap32 (i * j))) <$> py_range i (m + 1)))
      with (pre := @nil (Z * Z)) (s := s) as (s' & Hs' & HI' & HQ').
    - apply Forall_fmap, Forall_forall. intros j Hj. simpl. split; [done|].
      apply elem_of_seqZ in Hj. lia.
    - intros pre [j r] s0 [Hr Hj] [HI0 HQ0]. simpl in Hr, Hj. subst r.
      destruct (inner_body_step n m _ i j s0 (conj Hi Hj) HI0) as (s1 & Hs1 & HI1).
      exists s1. split; [done|]. rewrite fmap_app, app_assoc. split; [done|].
      by apply (Hstep _ i j s0 s1).
    - by rewrite app_nil_r.
    - exists s'. split; [done|]. simpl in HI', HQ'.
      by rewrite <- list_fmap_compose in HI', HQ'. }
  unfold analyzer_run in Hrun.
  destruct (init_state n m) as [st0|e] eqn:Hst0; [|done].
  cbn [mbind res_bind] in Hrun.
  assert (HI0 : Inv n m [] st0).
  { unfold init_state, np_zeros in Hst0.
    rewrite !bool_decide_eq_false_2 in Hst0 by lia. simplify_eq/=.
    exists []. apply InvF_init. }
  destruct (foldM_invariant (outer_body n m) (λ i, 1 ≤ i ≤ n)
              (λ pre s, Inv n m (i ← pre; (λ j, (i, j)) <$> py_range i (m + 1)) s
                        ∧ Q (i ← pre; (λ j, (i, j)) <$> py_range i (m + 1)) s)
              (py_range 1 (n + 1)))
    with (pre := @nil Z) (s := st0) as (st' & Hst' & _ & HQ).
  - apply Forall_seqZ. lia.
  - intros pre i s Hi [HI HQ].
    destruct (Hinner _ i s Hi HI HQ) as (s' & Hs' & HI' & HQ').
    exists s'. split; [done|]. rewrite bind_app. simpl. by rewrite app_nil_r.
  - split; [done|]. by apply Hinit.
  - rewrite Hrun in Hst'. by simplify_eq.
Qed.

(** ** First occurrences *)

Lemma inner_body_is_new (n m i j v : Z) (st st' : state) :
  valid_step n m (i, j) →
  shape (Z.to_nat n) (Z.to_nat m) (is_new_matrix st) →
  inner_body n i (j, v) st = Ok st' →
  is_new_matrix st'
  = if bool_decide (v ∉ seen_results st)
    then set2 (is_new_matrix st) (Z.to_nat (i - 1)) (Z.to_nat (j - 1)) true
    else is_new_matrix st.
Proof.
  intros [Hi Hj] Hnm. simpl in Hi, Hj. unfold inner_body.
  destruct (setitem2 (result_matrix st) (i - 1) (j - 1) v) as [rm1|e]; [|done].
  cbn [mbind res_bind].
  destruct (bool_decide (j ≤ n)).
  - destruct (setitem2 rm1 (j - 1) (i - 1) v) as [rm2|e]; [|done].
    cbn [mbind res_bind]. case_bool_decide.
    + rewrite (setitem2_in (Z.to_nat n) (Z.to_nat m)) by (done || lia).
      cbn [mbind res_bind]. by intros [= <-].
    + by intros [= <-].
  - cbn [mbind res_bind]. case_bool_decide.
    + rewrite (setitem2_in (Z.to_nat n) (Z.to_nat m)) by (done || lia).
      cbn [mbind res_bind]. by intros [= <-].
    + by intros [= <-].
Qed.

Lemma first_in_snoc (V : list (Z * Z)) (p q : Z * Z) :
  first_in (V ++ [q]) p ↔ first_in V p ∨ (p = q ∧ val q ∉ val <$> V).
Proof.
  unfold first_in. split.
  - intros (V1 & V2 & Heq & Hnew).
    destruct V2 as [|x V2 _] using rev_ind.
    + apply app_inj_tail in Heq as [-> ->]. by right.
    + rewrite app_comm_cons, app_assoc in Heq.
      apply app_inj_tail in Heq as [-> _]. left. eauto.
  - intros [(V1 & V2 & -> & Hnew)|[-> Hnew]].
    + exists V1, (V2 ++ [q]). by rewrite <- app_assoc.
    + by exists V, [].
Qed.

Lemma analyzer_first_in (n m : Z) (st : state) :
  0 ≤ n → 0 ≤ m → analyzer_run n m = Ok st →
  ∀ r c : nat,
    get2 (is_new_matrix st) r c = Some true
    ↔ first_in (steps n m) (Z.of_nat r + 1, Z.of_nat c + 1).
Proof.
  intros Hn Hm.
  apply (analyzer_run_invariant n m
           (λ V s, ∀ r c : nat,
              get2 (is_new_matrix s) r c = Some true
              ↔ first_in V (Z.of_nat r + 1, Z.of_nat c + 1))); [done|done| |].
  - intros s Hs r c. unfold init_state, np_zeros in Hs.
    rewrite !bool_decide_eq_false_2 in Hs by lia. simplify_eq/=.
    rewrite (inv_nm _ _ _ _ _ (InvF_init n m)). split.
    + intros Hin. by apply elem_of_nil in Hin.
    + intros (V1 & V2 & Heq & _). by destruct V1.
  - intros V i j s s' Hij [F HI] HK Hs' r c.
    rewrite (inner_body_is_new n m i j _ s s' Hij (inv_nm_shape _ _ _ _ _ HI) Hs').
    rewrite first_in_snoc, <- HK. destruct Hij as [Hi Hj]. simpl in Hi, Hj.
    assert (Hseen : wrap32 (i * j) ∈ seen_results s ↔ val (i, j) ∈ val <$> V).
    { by rewrite (inv_seen_V _ _ _ _ _ HI), elem_of_list_to_set. }
    case_bool_decide as Hnew.
    + destruct (decide ((r, c) = (Z.to_nat (i - 1), Z.to_nat (j - 1)))) as [Heq|Hne].
      * simplify_eq. rewrite (get2_set2_eq (Z.to_nat n) (Z.to_nat m));
          [|apply (inv_nm_shape _ _ _ _ _ HI)|lia|lia].
        split; [intros _|done]. right. split; [f_equal; lia|]. by rewrite <- Hseen.
      * rewrite get2_set2_ne by done. split; [auto|].
        intros [?|[Heq _]]; [done|]. destruct Hne. simplify_eq. f_equal; lia.
    + split; [auto|]. intros [?|[_ Hn']]; [done|].
      destruct Hn'. apply Hseen. by destruct (decide (wrap32 (i * j) ∈ seen_results s)).
Qed.

Lemma seqZ_split (a len k : Z) :
  a ≤ k < a + len →
  seqZ a len = seqZ a (k - a) ++ k :: seqZ (k + 1) (a + len - k - 1).
Proof.
  intros Hk. replace len with ((k - a) + (a + len - k)) at 1 by lia.
  rewrite seqZ_app by lia. f_equal.
  replace (a + (k - a)) with k by lia.
  rewrite seqZ_cons by lia. do 2 f_equal; lia.
Qed.

(** The traversal splits at every step into the steps visited before it, the
    step, and the rest. *)
Lemma steps_split (n m i j : Z) :
  1 ≤ i ≤ n → i ≤ j ≤ m →
  ∃ A B, steps n m = A ++ (i, j) :: B
         ∧ ∀ p, p ∈ A ↔ 1 ≤ p.1 ∧ p.1 ≤ p.2 ≤ m ∧ visited_before p (i, j).
Proof.
  intros Hi Hj. unfold steps, py_range.
  rewrite (seqZ_split 1 (n + 1 - 1) i) by lia.
  rewrite bind_app, bind_cons.
  rewrite (seqZ_split i (m + 1 - i) j) by lia.
  rewrite fmap_app, fmap_cons, <- !app_assoc, app_assoc. simpl.
  eexists _, _. split; [done|].
  intros [i' j']. unfold visited_before. simpl.
  rewrite elem_of_app, list_elem_of_bind, list_elem_of_fmap. split.
  - intros [(k & Hin & Hk)|(k & Heq & Hk)].
    + apply list_elem_of_fmap in Hin as (k' & Heq & Hk'). simplify_eq.
      apply elem_of_seqZ in Hk, Hk'. lia.
    + simplify_eq. apply elem_of_seqZ in Hk. lia.
  - intros (Hi1 & Hj' & [Hlt|[-> Hlt]]).
    + left. exists i'. split; [|apply elem_of_seqZ; lia].
      apply list_elem_of_fmap. exists j'. split; [done|]. apply elem_of_seqZ. lia.
    + right. exists j'. split; [done|]. apply elem_of_seqZ. lia.
Qed.

(** The first-occurrence matrix, cell by cell. *)
Lemma first_occurrence_cell (n m : Z) (st : state) (i j : Z) :
  0 < n → 0 < m → analyzer_run n m = Ok st → 1 ≤ i ≤ n → 1 ≤ j ≤ m →
  get2 (is_new_matrix st) (Z.to_nat (i - 1)) (Z.to_nat (j - 1)) = Some true
  ↔ i ≤ j
    ∧ ∀ i' j', 1 ≤ i' → i' ≤ j' ≤ m →
        visited_before (i', j') (i, j) →
        wrap32 (i' * j') ≠ wrap32 (i * j).
Proof.
  intros Hn Hm Hrun Hi Hj.
  rewrite (analyzer_first_in n m st) by (done || lia).
  replace (Z.of_nat (Z.to_nat (i - 1)) + 1, Z.of_nat (Z.to_nat (j - 1)) + 1)
    with (i, j) by (f_equal; lia).
  split.
  - intros (V1 & V2 & Heq & Hnew).
    assert (Hin : (i, j) ∈ steps n m).
    { rewrite Heq. apply elem_of_app. right. by left. }
    apply elem_of_steps in Hin. split; [lia|].
    destruct (steps_split n m i j) as (A & B & HAB & HA); [lia..|].
    assert (HV1 : (i, j) ∉ V1).
    { intros Hp. apply Hnew. by apply list_elem_of_fmap_2. }
    assert (HAp : (i, j) ∉ A).
    { intros Hp. apply HA in Hp. unfold visited_before in Hp. simpl in Hp. lia. }
    rewrite Heq in HAB.
    apply not_elem_of_app_cons_inv_l in HAB as (-> & _ & _); [|done..].
    intros i' j' Hi' Hj' Hlt Hval. apply Hnew.
    apply list_elem_of_fmap. exists (i', j'). split; [by unfold val|].
    by apply HA.
  - intros [Hij Hnew].
    destruct (steps_split n m i j) as (A & B & HAB & HA); [lia..|].
    exists A, B. split; [done|].
    intros Hin. apply list_elem_of_fmap in Hin as ([i' j'] & Hval & Hp).
    apply HA in Hp as (Hi' & Hj' & Hlt). simpl in Hi', Hj'.
    by apply (Hnew i' j').
Qed.

(** X6: in the returned first-occurrence matrix the cell in row [i], column
    [j] (counted from 1) is true exactly when the loops visit the pair
    ([i ≤ j]) and no pair visited earlier has the same 32-bit product. *)
Theorem true_cells_are_first_occurrences (n m : Z) :
  0 < n → 0 < m →
  ∃ a, count_unique_multiplication_results n m = Ok a
       ∧ ∀ i j, 1 ≤ i ≤ n → 1 ≤ j ≤ m →
           (get2 (a_is_new a) (Z.to_nat (i - 1)) (Z.to_nat (j - 1)) = Some true
            ↔ i ≤ j
              ∧ ∀ i' j', 1 ≤ i' → i' ≤ j' ≤ m →
                  visited_before (i', j') (i, j) →
                  wrap32 (i' * j') ≠ wrap32 (i * j)).
Proof.
  intros Hn Hm. destruct (analyzer_final n m) as (st & F & Hrun & HI); [lia..|].
  eexists. split; [by apply count_unique_of_run|].
  unfold a_is_new. simpl. intros i j Hi Hj.
  by apply (first_occurrence_cell n m st i j).
Qed.

Lemma true_cells_are_first_occurrences_witness :
  ∃ a, count_unique_multiplication_results 2 3 = Ok a
       ∧ ∀ i j, 1 ≤ i ≤ 2 → 1 ≤ j ≤ 3 →
           (get2 (a_is_new a) (Z.to_nat (i - 1)) (Z.to_nat (j - 1)) = Some true
            ↔ i ≤ j
              ∧ ∀ i' j', 1 ≤ i' → i' ≤ j' ≤ 3 →
                  visited_before (i', j') (i, j) →
                  wrap32 (i' * j') ≠ wrap32 (i * j)).
Proof. apply (true_cells_are_first_occurrences 2 3); lia. Defined.

(** X7: when [m] fits in 32 bits, the whole first row of the returned
    first-occurrence matrix is true; and whatever the sizes, a row whose
    number exceeds [m] is false throughout. *)
Theorem first_row_new_and_rows_beyond_columns_not (n m : Z) :
  0 < n → 0 < m →
  ∃ a, count_unique_multiplication_results n m = Ok a
       ∧ (m ≤ max_int32 →
          ∀ j, 1 ≤ j ≤ m → get2 (a_is_new a) 0 (Z.to_nat (j - 1)) = Some true)
       ∧ (∀ i j, m < i ≤ n → 1 ≤ j ≤ m →
            get2 (a_is_new a) (Z.to_nat (i - 1)) (Z.to_nat (j - 1)) = Some false).
Proof.
  intros Hn Hm. destruct (analyzer_final n m) as (st & F & Hrun & HI); [lia..|].
  eexists. split; [by apply count_unique_of_run|].
  unfold a_is_new. simpl. split.
  - intros Hmax j Hj.
    apply (first_occurrence_cell n m st 1 j); [done..|lia|done|].
    split; [lia|]. intros i' j' Hi' Hj'. unfold visited_before. simpl.
    intros [Hlt|[-> Hlt]]; [lia|].
    rewrite !Z.mul_1_l, !wrap32_small by (unfold max_int32 in *; lia). lia.
  - intros i j Hi Hj.
    destruct (get2_is_Some (Z.to_nat n) (Z.to_nat m) (is_new_matrix st)
                (Z.to_nat (i - 1)) (Z.to_nat (j - 1))) as [[|] Hget];
      [apply (inv_nm_shape _ _ _ _ _ HI)|lia|lia| |done].
    apply (first_occurrence_cell n m st i j) in Hget; [lia|lia|lia|done|lia|done].
Qed.

Lemma first_row_new_and_rows_beyond_columns_not_witness :
  ∃ a, count_unique_multiplication_results 3 2 = Ok a
       ∧ (2 ≤ max_int32 →
          ∀ j, 1 ≤ j ≤ 2 → get2 (a_is_new a) 0 (Z.to_nat (j - 1)) = Some true)
       ∧ (∀ i j, 2 < i ≤ 3 → 1 ≤ j ≤ 2 →
            get2 (a_is_new a) (Z.to_nat (i - 1)) (Z.to_nat (j - 1)) = Some false).
Proof. apply (first_row_new_and_rows_beyond_columns_not 3 2); lia. Defined.

(** ** The returned matrices and set *)

(** X1: for non-negative sizes both returned matrices have [n] rows of [m]
    entries each. *)
Theorem returned_matrices_have_n_rows_m_columns (n m : Z) :
  0 ≤ n → 0 ≤ m →
  ∃ a, count_unique_multiplication_results n m = Ok a
       ∧ length (a_result a) = Z.to_nat n
       ∧ Forall (λ row, length row = Z.to_nat m) (a_result a)
       ∧ length (a_is_new a) = Z.to_nat n
       ∧ Forall (λ row, length row = Z.to_nat m) (a_is_new a).
Proof.
  intros Hn Hm. destruct (analyzer_final n m) as (st & F & Hrun & HI); [lia..|].
  eexists. split; [by apply count_unique_of_run|].
  destruct (inv_rm_shape _ _ _ _ _ HI) as [? ?].
  by destruct (inv_nm_shape _ _ _ _ _ HI) as [? ?].
Qed.

Lemma returned_matrices_have_n_rows_m_columns_witness :
  ∃ a, count_unique_multiplication_results 3 0 = Ok a
       ∧ length (a_result a) = Z.to_nat 3
       ∧ Forall (λ row, length row = Z.to_nat 0) (a_result a)
       ∧ length (a_is_new a) = Z.to_nat 3
       ∧ Forall (λ row, length row = Z.to_nat 0) (a_is_new a).
Proof. apply (returned_matrices_have_n_rows_m_columns 3 0); lia. Defined.

(** X2: in the returned product matrix a row whose number [i] is at most
    [m] holds the 32-bit products [i * j] in all its columns, and a row
    whose number exceeds [m] holds only zeros. *)
Theorem product_matrix_rows (n m : Z) :
  0 < n → 0 < m →
  ∃ a, count_unique_multiplication_results n m = Ok a
       ∧ ∀ i j, 1 ≤ i ≤ n → 1 ≤ j ≤ m →
           (i ≤ m →
            get2 (a_result a) (Z.to_nat (i - 1)) (Z.to_nat (j - 1)) = Some (wrap32 (i * j)))
           ∧ (m < i →
              get2 (a_result a) (Z.to_nat (i - 1)) (Z.to_nat (j - 1)) = Some 0).
Proof.
  intros Hn Hm. destruct (returned_result_matrix n m) as (a & Ha & Hcell); [lia..|].
  exists a. split; [done|]. intros i j Hi Hj. rewrite Hcell by done.
  split; intros Him; [by rewrite bool_decide_eq_true_2|].
  rewrite bool_decide_eq_false_2; [done|lia].
Qed.

Lemma product_matrix_rows_witness :
  ∃ a, count_unique_multiplication_results 3 2 = Ok a
       ∧ ∀ i j, 1 ≤ i ≤ 3 → 1 ≤ j ≤ 2 →
           (i ≤ 2 →
            get2 (a_result a) (Z.to_nat (i - 1)) (Z.to_nat (j - 1)) = Some (wrap32 (i * j)))
           ∧ (2 < i →
              get2 (a_result a) (Z.to_nat (i - 1)) (Z.to_nat (j - 1)) = Some 0).
Proof. apply (product_matrix_rows 3 2); lia. Defined.

(** The returned set, element by element. *)
Lemma elem_of_seen (n m : Z) (F : list (Z * Z)) (st : state) (v : Z) :
  InvF n m (steps n m) F st →
  v ∈ seen_results st ↔ ∃ i j, 1 ≤ i ≤ n ∧ i ≤ j ≤ m ∧ v = wrap32 (i * j).
Proof.
  intros HI. rewrite (inv_seen_V _ _ _ _ _ HI), elem_of_list_to_set, list_elem_of_fmap.
  split.
  - intros ([i j] & -> & Hij). apply elem_of_steps in Hij.
    exists i, j. unfold val. simpl. tauto.
  - intros (i & j & Hi & Hj & ->). exists (i, j). split; [by unfold val|].
    by apply elem_of_steps.
Qed.

(** X3: for non-negative sizes the returned set holds exactly the 32-bit
    products [i * j] of the pairs with [1 ≤ i ≤ n] and [i ≤ j ≤ m]. *)
Theorem set_is_products_of_visited_pairs (n m : Z) :
  0 ≤ n → 0 ≤ m →
  ∃ a, count_unique_multiplication_results n m = Ok a
       ∧ ∀ v, v ∈ a_set a ↔ ∃ i j, 1 ≤ i ≤ n ∧ i ≤ j ≤ m ∧ v = wrap32 (i * j).
Proof.
  intros Hn Hm. destruct (analyzer_final n m) as (st & F & Hrun & HI); [lia..|].
  eexists. split; [by apply count_unique_of_run|].
  intros v. by apply (elem_of_seen n m F).
Qed.

Lemma set_is_products_of_visited_pairs_witness :
  ∃ a, count_unique_multiplication_results 3 2 = Ok a
       ∧ ∀ v, v ∈ a_set a ↔ ∃ i j, 1 ≤ i ≤ 3 ∧ i ≤ j ≤ 2 ∧ v = wrap32 (i * j).
Proof. apply (set_is_products_of_visited_pairs 3 2); lia. Defined.

(** X4: when [min n m * m] fits in 32 bits, the returned set is the set of
    products of the table with [min n m] rows and [m] columns, and the count
    is its cardinality: rows beyond the [m]-th add nothing. *)
Theorem set_is_products_of_first_min_rows (n m : Z) :
  0 < n → 0 < m → Z.min n m * m ≤ max_int32 →
  ∃ a, count_unique_multiplication_results n m = Ok a
       ∧ a_set a = table_products (Z.min n m) m
       ∧ a_count a = size (table_products (Z.min n m) m).
Proof.
  intros Hn Hm Hmax. destruct (analyzer_final n m) as (st & F & Hrun & HI); [lia..|].
  eexists. split; [by apply count_unique_of_run|].
  unfold a_set, a_count. simpl.
  assert (Heq : seen_results st = table_products (Z.min n m) m); [|by rewrite Heq].
  apply set_eq. intros x. rewrite (elem_of_seen n m F) by done.
  rewrite elem_of_table_products.
  assert (Hsmall : ∀ i j, 1 ≤ i ≤ Z.min n m → 1 ≤ j ≤ m → wrap32 (i * j) = i * j).
  { intros i j Hi Hj. apply wrap32_small. unfold max_int32 in *. nia. }
  split.
  - intros (i & j & Hi & Hj & ->). exists i, j. rewrite Hsmall by lia. lia.
  - intros (i & j & Hi & Hj & ->). destruct (decide (i ≤ j)).
    + exists i, j. rewrite Hsmall by lia. lia.
    + exists j, i. rewrite Hsmall by lia. lia.
Qed.

Lemma set_is_products_of_first_min_rows_witness :
  ∃ a, count_unique_multiplication_results 5 3 = Ok a
       ∧ a_set a = table_products (Z.min 5 3) 3
       ∧ a_count a = size (table_products (Z.min 5 3) 3).
Proof.
  apply (set_is_products_of_first_min_rows 5 3); [lia|lia|by vm_compute].
Defined.

(** X5: enlarging the table never loses an answer: with [n ≤ n'] and
    [m ≤ m'] the set returned for [(n, m)] is included in the one returned
    for [(n', m')], and the count is not larger. *)
Theorem larger_table_keeps_answers (n m n' m' : Z) :
  0 ≤ n → 0 ≤ m → n ≤ n' → m ≤ m' →
  ∃ a a', count_unique_multiplication_results n m = Ok a
          ∧ count_unique_multiplication_results n' m' = Ok a'
          ∧ a_set a ⊆ a_set a'
          ∧ (a_count a ≤ a_count a')%nat.
Proof.
  intros Hn Hm Hn' Hm'.
  destruct (analyzer_final n m) as (st & F & Hrun & HI); [lia..|].
  destruct (analyzer_final n' m') as (st' & F' & Hrun' & HI'); [lia..|].
  eexists _, _. split; [by apply count_unique_of_run|].
  split; [by apply count_unique_of_run|].
  unfold a_set, a_count. simpl.
  assert (Hsub : seen_results st ⊆ seen_results st').
  { intros v. rewrite (elem_of_seen n m F), (elem_of_seen n' m' F') by done.
    intros (i & j & Hi & Hj & ->). exists i, j. lia. }
  split; [done|]. by apply subseteq_size.
Qed.

Lemma larger_table_keeps_answers_witness :
  ∃ a a', count_unique_multiplication_results 2 3 = Ok a
          ∧ count_unique_multiplication_results 4 3 = Ok a'
          ∧ a_set a ⊆ a_set a'
          ∧ (a_count a ≤ a_count a')%nat.
Proof. apply (larger_table_keeps_answers 2 3 4 3); lia. Defined.

(** X8: for positive sizes with [m] within 32 bits, the count is at least
    [m] (the first row alone gives [m] different answers) and at most the
    number [n * m] of cells. *)
Theorem count_between_columns_and_cells (n m : Z) :
  0 < n → 0 < m → m ≤ max_int32 →
  ∃ a, count_unique_multiplication_results n m = Ok a
       ∧ m ≤ Z.of_nat (a_count a) ≤ n * m.
Proof.
  intros Hn Hm Hmax. destruct (analyzer_final n m) as (st & F & Hrun & HI); [lia..|].
  eexists. split; [by apply count_unique_of_run|].
  unfold a_count. simpl. split.
  - assert (Hsub : list_to_set (seqZ 1 m) ⊆ seen_results st).
    { intros v Hv. apply elem_of_list_to_set, elem_of_seqZ in Hv.
      apply (elem_of_seen n m F); [done|]. exists 1, v.
      rewrite Z.mul_1_l, wrap32_small by (unfold max_int32 in *; lia). lia. }
    apply subseteq_size in Hsub.
    rewrite size_list_to_set, length_seqZ in Hsub by apply NoDup_seqZ. lia.
  - rewrite (size_seen_length _ _ _ _ _ HI), <- (inv_count _ _ _ _ _ HI).
    unfold count_true.
    pose proof (length_filter (λ b, b = true) (concat (is_new_matrix st))) as Hle.
    rewrite (length_concat_shape (Z.to_nat n) (Z.to_nat m)) in Hle
      by apply (inv_nm_shape _ _ _ _ _ HI).
    nia.
Qed.

Lemma count_between_columns_and_cells_witness :
  ∃ a, count_unique_multiplication_results 2 3 = Ok a
       ∧ 3 ≤ Z.of_nat (a_count a) ≤ 2 * 3.
Proof.
  apply (count_between_columns_and_cells 2 3); [lia|lia|by vm_compute].
Defined.

(** X14: rows beyond the [m]-th change nothing in the answer: for
    [0 ≤ m ≤ n] the analyzer returns for [(n, m)] the same set and the same
    count as for the square table [(m, m)]. *)
Theorem rows_beyond_columns_add_no_answer (n m : Z) :
  0 ≤ m → m ≤ n →
  ∃ a a', count_unique_multiplication_results n m = Ok a
          ∧ count_unique_multiplication_results m m = Ok a'
          ∧ a_set a = a_set a'
          ∧ a_count a = a_count a'.
Proof.
  intros Hm Hmn.
  destruct (analyzer_final n m) as (st & F & Hrun & HI); [lia..|].
  destruct (analyzer_final m m) as (st' & F' & Hrun' & HI'); [lia..|].
  eexists _, _. split; [by apply count_unique_of_run|].
  split; [by apply count_unique_of_run|].
  unfold a_set, a_count. simpl.
  assert (Heq : seen_results st = seen_results st'); [|by rewrite Heq].
  apply set_eq. intros v.
  rewrite (elem_of_seen n m F), (elem_of_seen m m F') by done.
  split; intros (i & j & Hi & Hj & ->); exists i, j; lia.
Qed.

Lemma rows_beyond_columns_add_no_answer_witness :
  ∃ a a', count_unique_multiplication_results 5 2 = Ok a
          ∧ count_unique_multiplication_results 2 2 = Ok a'
          ∧ a_set a = a_set a'
          ∧ a_count a = a_count a'.
Proof. apply (rows_beyond_columns_add_no_answer 5 2); lia. Defined.

(** ** The drawn cells *)

Lemma xy_rows_elem (h : nat → nat → Z * Z) (X : matrix bool) (x : Z * Z) :
  x ∈ xy <$> concat (imap (λ r row, imap (λ c b, mkPatch (h r c) (cell_color b)) row) X) →
  ∃ r c, x = h r c.
Proof.
  intros Hx. apply list_elem_of_fmap in Hx as (p & -> & Hp).
  apply list_elem_of_In, in_concat in Hp as (ps & Hps & Hp).
  apply list_elem_of_In in Hps, Hp.
  apply elem_of_lookup_imap in Hps as (r & row & -> & _).
  apply elem_of_lookup_imap in Hp as (c & b & -> & _). by exists r, c.
Qed.

Lemma NoDup_xy_row (g : nat → Z * Z) (row : list bool) :
  (∀ c1 c2, g c1 = g c2 → c1 = c2) →
  NoDup (xy <$> imap (λ c b, mkPatch (g c) (cell_color b)) row).
Proof.
  revert g. induction row as [|b row IH]; intros g Hg; [constructor|].
  rewrite imap_cons, fmap_cons. apply NoDup_cons. split.
  - intros Hin. apply list_elem_of_fmap in Hin as (p & Hp & Hin).
    apply elem_of_lookup_imap in Hin as (c & b' & -> & _). simpl in Hp.
    by apply Hg in Hp.
  - apply (IH (g ∘ S)). intros c1 c2 Heq. apply Hg in Heq. lia.
Qed.

Lemma NoDup_xy_rows (h : nat → nat → Z * Z) (X : matrix bool) :
  (∀ r1 c1 r2 c2, h r1 c1 = h r2 c2 → r1 = r2 ∧ c1 = c2) →
  NoDup (xy <$> concat (imap (λ r row, imap (λ c b, mkPatch (h r c) (cell_color b)) row) X)).
Proof.
  revert h. induction X as [|row X IH]; intros h Hh; [constructor|].
  rewrite imap_cons. cbn [concat]. rewrite fmap_app. apply NoDup_app.
  split; [|split].
  - apply (NoDup_xy_row (h 0%nat)). intros c1 c2 Heq. by apply Hh in Heq as [_ ?].
  - intros x Hx Hx'.
    apply list_elem_of_fmap in Hx as (p & -> & Hp).
    apply elem_of_lookup_imap in Hp as (c & b & -> & _). simpl in Hx'.
    apply (xy_rows_elem (λ r, h (S r))) in Hx' as (r' & c' & Heq).
    by apply Hh in Heq as [? _].
  - apply (IH (λ r, h (S r))). intros r1 c1 r2 c2 Heq. apply Hh in Heq. lia.
Qed.

Lemma repeat_colored_count (ps : list patch) (bs : list bool) :
  facecolor <$> ps = cell_color <$> bs →
  (length (filter (λ p, facecolor p = repeat_color) ps)
   + length (filter (λ b, b = true) bs) = length bs)%nat.
Proof.
  revert bs. induction ps as [|p ps IH]; intros [|b bs] Heq; [done..|].
  rewrite !fmap_cons in Heq. injection Heq as Hp Hps.
  rewrite !filter_cons. destruct b; simpl in Hp.
  - rewrite decide_False by (by rewrite Hp). rewrite decide_True by done.
    simpl. pose proof (IH bs Hps). lia.
  - rewrite decide_True by done. rewrite decide_False by done.
    simpl. pose proof (IH bs Hps). lia.
Qed.

(** X9: for positive sizes the renderer draws [n * m] unit squares at
    pairwise different integer positions, each inside the axes limits
    [0 ≤ x], [x + 1 ≤ m], [0 ≤ y], [y + 1 ≤ n]. *)
Theorem drawn_squares_tile_the_axes (n m : Z) :
  0 < n → 0 < m →
  ∃ ax r,
    visualize_multiplication_table n m = Ok (ax, r)
    ∧ Z.of_nat (length ax) = n * m
    ∧ NoDup (xy <$> ax)
    ∧ ∀ p, p ∈ ax →
        0 ≤ (xy p).1 ∧ (xy p).1 + 1 ≤ m ∧ 0 ≤ (xy p).2 ∧ (xy p).2 + 1 ≤ n.
Proof.
  intros Hn Hm. destruct (analyzer_final n m) as (st & F & Hrun & HI); [lia..|].
  pose proof (inv_nm_shape _ _ _ _ _ HI) as Hshape.
  unfold visualize_multiplication_table.
  rewrite (count_unique_of_run n m st Hrun).
  unfold a_set, a_count, a_is_new. cbn [mbind res_bind fst snd].
  rewrite draw_cells_patches by (done || lia). cbn [mbind res_bind].
  eexists _, _. split; [done|]. split; [|split].
  - rewrite <- (length_fmap facecolor), facecolor_patches_of, length_fmap.
    rewrite (length_concat_shape (Z.to_nat n) (Z.to_nat m)) by done. lia.
  - apply (NoDup_xy_rows (λ r c, (Z.of_nat c, n - 1 - Z.of_nat r))).
    intros r1 c1 r2 c2 Heq. injection Heq as Hc Hr. lia.
  - intros p Hp. apply elem_of_patches_of in Hp as (r & c & b & Hget & ->). simpl.
    unfold get2 in Hget.
    destruct (is_new_matrix st !! r) as [row|] eqn:Hrow; [|done]. simpl in Hget.
    destruct Hshape as [HN HM].
    pose proof (proj1 (Forall_lookup _ _) HM _ _ Hrow) as Hlen. simpl in Hlen.
    apply lookup_lt_Some in Hrow, Hget. lia.
Qed.

Lemma drawn_squares_tile_the_axes_witness :
  ∃ ax r,
    visualize_multiplication_table 2 3 = Ok (ax, r)
    ∧ Z.of_nat (length ax) = 2 * 3
    ∧ NoDup (xy <$> ax)
    ∧ ∀ p, p ∈ ax →
        0 ≤ (xy p).1 ∧ (xy p).1 + 1 ≤ 3 ∧ 0 ≤ (xy p).2 ∧ (xy p).2 + 1 ≤ 2.
Proof. apply (drawn_squares_tile_the_axes 2 3); lia. Defined.

(** X10: for positive sizes the number of squares drawn in the repeat
    colour is the number of cells minus the returned count. *)
Theorem repeat_colored_squares_are_the_rest (n m : Z) :
  0 < n → 0 < m →
  ∃ ax count unique_results,
    visualize_multiplication_table n m = Ok (ax, (count, unique_results))
    ∧ Z.of_nat (length (filter (λ p, facecolor p = repeat_color) ax))
      = n * m - Z.of_nat count.
Proof.
  intros Hn Hm. destruct (analyzer_final n m) as (st & F & Hrun & HI); [lia..|].
  pose proof (inv_nm_shape _ _ _ _ _ HI) as Hshape.
  unfold visualize_multiplication_table.
  rewrite (count_unique_of_run n m st Hrun).
  unfold a_set, a_count, a_is_new. cbn [mbind res_bind fst snd].
  rewrite draw_cells_patches by (done || lia). cbn [mbind res_bind].
  eexists _, _, _. split; [done|].
  pose proof (repeat_colored_count _ _ (facecolor_patches_of n (is_new_matrix st))) as Hsum.
  fold (count_true (is_new_matrix st)) in Hsum.
  rewrite (length_concat_shape (Z.to_nat n) (Z.to_nat m)) in Hsum by done.
  rewrite (inv_count _ _ _ _ _ HI), <- (size_seen_length _ _ _ _ _ HI) in Hsum.
  nia.
Qed.

Lemma repeat_colored_squares_are_the_rest_witness :
  ∃ ax count unique_results,
    visualize_multiplication_table 2 3 = Ok (ax, (count, unique_results))
    ∧ Z.of_nat (length (filter (λ p, facecolor p = repeat_color) ax))
      = 2 * 3 - Z.of_nat count.
Proof. apply (repeat_colored_squares_are_the_rest 2 3); lia. Defined.

(** X11: with a negative [n] or [m] the renderer raises the [ValueError] of
    the analyzer's allocation and draws nothing. *)
Theorem renderer_raises_on_negative_size (n m : Z) :
  n < 0 ∨ m < 0 → visualize_multiplication_table n m = Err ValueError.
Proof.
  intros Hneg.
  unfold visualize_multiplication_table, count_unique_multiplication_results,
    analyzer_run, init_state, np_zeros.
  by rewrite bool_decide_eq_true_2.
Qed.

Lemma renderer_raises_on_negative_size_witness :
  visualize_multiplication_table 4 (-2) = Err ValueError.
Proof. apply (renderer_raises_on_negative_size 4 (-2)). right. lia. Defined.

(** ** Font configuration *)

Lemma font_loop_result (findfont : string → res string) (fonts : list string)
    (g : globals) (out : list string) :
  match font_loop findfont fonts g out with
  | Some r =>
      ∃ (k : nat) (name path : string),
        fonts !! k = Some name
        ∧ findfont name = Ok path
        ∧ (∀ (k' : nat) name', (k' < k)%nat → fonts !! k' = Some name' →
             ∃ e, findfont name' = Err e)
        ∧ r = (true, mkGlobals name (font_sans_serif g),
               out ++ ["日本語フォントを設定しました: " +:+ name])
  | None => ∀ name, name ∈ fonts → ∃ e, findfont name = Err e
  end.
Proof.
  induction fonts as [|font fonts IH]; simpl.
  - intros name Hin. by apply elem_of_nil in Hin.
  - destruct (findfont font) as [path|e] eqn:Hfont.
    + exists 0%nat, font, path. repeat split; [done|]. intros k' name' Hk'. lia.
    + destruct (font_loop findfont fonts g out) as [r|].
      * destruct IH as (k & name & path & Hk & Hok & Hearlier & ->).
        exists (S k), name, path. repeat split; [done..|].
        intros [|k'] name' Hk' Hlook; simplify_eq/=; [by exists e|].
        apply (Hearlier k'); [lia|done].
      * intros name Hin. apply elem_of_cons in Hin as [->|Hin]; [by exists e|auto].
Qed.

(** X12: when [findfont] succeeds on at least one of the candidate fonts,
    the setup returns [True], sets [font.family] to the first candidate, in
    the order of the list, on which it succeeds, leaves [font.sans-serif]
    as it was, and prints one line naming that font. *)
Theorem font_setup_takes_first_found (findfont : string → res string) (g : globals) :
  (∃ name path, name ∈ japanese_fonts ∧ findfont name = Ok path) →
  ∃ (k : nat) (name path : string),
    japanese_fonts !! k = Some name
    ∧ findfont name = Ok path
    ∧ (∀ (k' : nat) name', (k' < k)%nat → japanese_fonts !! k' = Some name' →
         ∃ e, findfont name' = Err e)
    ∧ setup_japanese_font findfont g
      = (true, mkGlobals name (font_sans_serif g),
         ["日本語フォントを設定しました: " +:+ name]).
Proof.
  intros (name & path & Hin & Hok). unfold setup_japanese_font.
  pose proof (font_loop_result findfont japanese_fonts g []) as Hloop.
  destruct (font_loop findfont japanese_fonts g []) as [r|].
  - destruct Hloop as (k & name' & path' & Hk & Hok' & Hearlier & ->).
    by exists k, name', path'.
  - destruct (Hloop name Hin) as [e He]. congruence.
Qed.

Lemma font_setup_takes_first_found_witness :
  ∃ (k : nat) (name path : string),
    japanese_fonts !! k = Some name
    ∧ (if decide (name = "Yu Gothic" ∨ name = "Meiryo")
       then Ok ("/fonts/" +:+ name) else Err ValueError) = Ok path
    ∧ (∀ (k' : nat) name', (k' < k)%nat → japanese_fonts !! k' = Some name' →
         ∃ e, (if decide (name' = "Yu Gothic" ∨ name' = "Meiryo")
               then Ok ("/fonts/" +:+ name') else Err ValueError) = Err e)
    ∧ setup_japanese_font
        (λ name, if decide (name = "Yu Gothic" ∨ name = "Meiryo")
                 then Ok ("/fonts/" +:+ name) else Err ValueError)
        (mkGlobals "DejaVu Sans" ["DejaVu Sans"])
      = (true, mkGlobals name ["DejaVu Sans"],
         ["日本語フォントを設定しました: " +:+ name]).
Proof.
  apply (font_setup_takes_first_found
           (λ name, if decide (name = "Yu Gothic" ∨ name = "Meiryo")
                    then Ok ("/fonts/" +:+ name) else Err ValueError)
           (mkGlobals "DejaVu Sans" ["DejaVu Sans"])).
  exists "Meiryo", "/fonts/Meiryo". split; [|done].
  unfold japanese_fonts. rewrite !elem_of_cons. auto 10.
Defined.

(** X13: when [findfont] raises on every candidate font, the setup returns
    [False], sets [font.family] to ['sans-serif'] and [font.sans-serif] to
    its four-font list, and prints the default line; every font of that
    list is one of the candidates that have just failed. *)
Theorem font_setup_falls_back (findfont : string → res string) (g : globals) :
  (∀ name, name ∈ japanese_fonts → ∃ e, findfont name = Err e) →
  setup_japanese_font findfont g
  = (false,
     mkGlobals "sans-serif" ["Hiragino Sans"; "Arial Unicode MS"; "Yu Gothic"; "Meiryo"],
     ["デフォルトの日本語フォント設定を使用します"])
  ∧ ∀ name, name ∈ font_sans_serif (setup_japanese_font findfont g).1.2 →
      name ∈ japanese_fonts ∧ ∃ e, findfont name = Err e.
Proof.
  intros Hfail.
  assert (Heq : setup_japanese_font findfont g
    = (false,
       mkGlobals "sans-serif" ["Hiragino Sans"; "Arial Unicode MS"; "Yu Gothic"; "Meiryo"],
       ["デフォルトの日本語フォント設定を使用します"])).
  { unfold setup_japanese_font.
    pose proof (font_loop_result findfont japanese_fonts g []) as Hloop.
    destruct (font_loop findfont japanese_fonts g []) as [r|]; [|done].
    destruct Hloop as (k & name & path & Hk & Hok & _).
    destruct (Hfail name) as [e He]; [|congruence].
    by eapply list_elem_of_lookup_2. }
  split; [done|]. rewrite Heq. simpl. intros name Hin.
  assert (Hcand : name ∈ japanese_fonts).
  { unfold japanese_fonts. rewrite !elem_of_cons in Hin. rewrite !elem_of_cons.
    destruct Hin as [->|[->|[->|[->|Hin]]]]; auto 10. }
  split; [done|]. by apply Hfail.
Qed.

Lemma font_setup_falls_back_witness :
  setup_japanese_font (λ _, Err ValueError) (mkGlobals "DejaVu Sans" [])
  = (false,
     mkGlobals "sans-serif" ["Hiragino Sans"; "Arial Unicode MS"; "Yu Gothic"; "Meiryo"],
     ["デフォルトの日本語フォント設定を使用します"])
  ∧ ∀ name,
      name ∈ font_sans_serif
               (setup_japanese_font (λ _, Err ValueError) (mkGlobals "DejaVu Sans" [])).1.2 →
      name ∈ japanese_fonts ∧ ∃ e, (λ _ : string, @Err string ValueError) name = Err e.
Proof.
  apply (font_setup_falls_back (λ _, Err ValueError) (mkGlobals "DejaVu Sans" [])).
  intros name _. by exists ValueError.
Defined.
